(** * A model of the websocket hooks: [useWebSocket] and [useBatchedMessages]

    The two React hooks of the repository are embedded as state
    transformers over one explicit store:

    - the host objects the hooks create (WebSocket objects, interval timers,
      JS arrays, the console),
    - the hook cells React keeps for a component instance ([useRef] cells and
      the dependency arrays of the two [useEffect] calls),
    - observation traces (which callback was invoked with what).

    Function references are compared by identity ([Object.is]), so a
    callback is modelled by a name; JS arrays are heap objects, so an array
    is modelled by its location in [arrays], which makes aliasing between a
    delivered batch and the live buffer visible. *)

From stdpp Require Import base option list sorting strings gmap.
From Stdlib Require Import ZArith Lia.

Set Default Proof Using "Type".

(** ** Host objects *)

Inductive readyState := CONNECTING | OPEN | CLOSING | CLOSED.

Global Instance readyState_eq_dec : EqDecision readyState.
Proof. solve_decision. Defined.

(** A function reference.  [Extern f] is a function supplied by the caller
    of a hook; [PushClosure n] is the arrow function
    [(message) => { batchRef.current.push(message); }] that the [n]-th
    render of [useBatchedMessages] allocates (batchingMessages.js, line 5):
    a new function object at every render. *)
Inductive callback := Extern (f : nat) | PushClosure (n : nat).

Global Instance callback_eq_dec : EqDecision callback.
Proof. solve_decision. Defined.

(** The three handlers [useWebSocket] installs on a socket
    (useWebSocket.js, lines 8-10). *)
Inductive handler :=
| LogConnected
| DecodeAndForward (onMessage : callback)
| LogDisconnected.

Record WebSocket := mkWebSocket {
  ws_url : string;
  ws_readyState : readyState;
  ws_onopen : option handler;
  ws_onmessage : option handler;
  ws_onclose : option handler
}.

(** An interval created by [setInterval]: its delay, the [onBatchMessage]
    its callback closes over, and whether [clearInterval] has been called. *)
Record Interval := mkInterval {
  iv_delay : Z;
  iv_onBatch : nat;
  iv_live : bool
}.

Inductive exn := SyntaxError | TypeError | ConsumerError.

Inductive completion (A : Type) :=
| Normal (a : A)
| Throw (e : exn).
Arguments Normal {A} a.
Arguments Throw {A} e.

(** How the consumer's [onBatchMessage] behaves at one invocation: the
    messages the per-message handler appends while the callback is still
    running (a message event dispatched synchronously from inside it), and
    whether the callback then throws. *)
Record reaction (Message : Type) := mkReaction {
  during : list Message;
  throws : bool
}.
Arguments mkReaction {Message} during throws.
Arguments during {Message} r.
Arguments throws {Message} r.

(** The life of one component instance. *)
Inductive phase := Fresh | Mounted | Unmounted.

Global Instance phase_eq_dec : EqDecision phase.
Proof. solve_decision. Defined.

Section Hooks.

Context {Message : Type}.

(** [JSON.parse] belongs to the host; [None] stands for the [SyntaxError]
    it throws on a text that is not JSON. *)
Variable JSON_parse : string -> option Message.

(** One invocation of [onBatchMessage]: the function called, the array
    passed (by reference) and the contents of that array at the call. *)
Record delivery := mkDelivery {
  d_fn : nat;
  d_array : nat;
  d_items : list Message
}.

Record state := mkState {
  (* host objects, each identified by its index *)
  sockets : list WebSocket;
  intervals : list Interval;
  arrays : list (list Message);
  console : list string;
  (* the component instance *)
  lifecycle : phase;
  renders : nat;
  (* useWebSocket: socketRef.current, and the dependency array
     [url, onMessage] of the effect that is mounted *)
  socketRef : option nat;
  ws_deps : option (string * callback);
  (* useBatchedMessages: batchRef.current, and the dependency array
     [batchInterval, onBatchMessage] of the mounted effect together with
     the [interval] its cleanup closes over *)
  batchRef : nat;
  tm_deps : option (Z * nat * nat);
  (* observations *)
  calls : list (nat * Message);
  batches : list delivery;
  arrived : list Message
}.

Definition set_sockets (f : list WebSocket -> list WebSocket) (s : state) : state :=
  mkState (f (sockets s)) (intervals s) (arrays s) (console s) (lifecycle s)
    (renders s) (socketRef s) (ws_deps s) (batchRef s) (tm_deps s)
    (calls s) (batches s) (arrived s).

Definition set_intervals (f : list Interval -> list Interval) (s : state) : state :=
  mkState (sockets s) (f (intervals s)) (arrays s) (console s) (lifecycle s)
    (renders s) (socketRef s) (ws_deps s) (batchRef s) (tm_deps s)
    (calls s) (batches s) (arrived s).

Definition set_arrays (f : list (list Message) -> list (list Message)) (s : state) : state :=
  mkState (sockets s) (intervals s) (f (arrays s)) (console s) (lifecycle s)
    (renders s) (socketRef s) (ws_deps s) (batchRef s) (tm_deps s)
    (calls s) (batches s) (arrived s).

Definition set_console (f : list string -> list string) (s : state) : state :=
  mkState (sockets s) (intervals s) (arrays s) (f (console s)) (lifecycle s)
    (renders s) (socketRef s) (ws_deps s) (batchRef s) (tm_deps s)
    (calls s) (batches s) (arrived s).

Definition set_lifecycle (p : phase) (s : state) : state :=
  mkState (sockets s) (intervals s) (arrays s) (console s) p
    (renders s) (socketRef s) (ws_deps s) (batchRef s) (tm_deps s)
    (calls s) (batches s) (arrived s).

Definition set_renders (n : nat) (s : state) : state :=
  mkState (sockets s) (intervals s) (arrays s) (console s) (lifecycle s)
    n (socketRef s) (ws_deps s) (batchRef s) (tm_deps s)
    (calls s) (batches s) (arrived s).

Definition set_socketRef (r : option nat) (s : state) : state :=
  mkState (sockets s) (intervals s) (arrays s) (console s) (lifecycle s)
    (renders s) r (ws_deps s) (batchRef s) (tm_deps s)
    (calls s) (batches s) (arrived s).

Definition set_ws_deps (d : option (string * callback)) (s : state) : state :=
  mkState (sockets s) (intervals s) (arrays s) (console s) (lifecycle s)
    (renders s) (socketRef s) d (batchRef s) (tm_deps s)
    (calls s) (batches s) (arrived s).

Definition set_batchRef (a : nat) (s : state) : state :=
  mkState (sockets s) (intervals s) (arrays s) (console s) (lifecycle s)
    (renders s) (socketRef s) (ws_deps s) a (tm_deps s)
    (calls s) (batches s) (arrived s).

Definition set_tm_deps (d : option (Z * nat * nat)) (s : state) : state :=
  mkState (sockets s) (intervals s) (arrays s) (console s) (lifecycle s)
    (renders s) (socketRef s) (ws_deps s) (batchRef s) d
    (calls s) (batches s) (arrived s).

Definition set_calls (f : list (nat * Message) -> list (nat * Message)) (s : state) : state :=
  mkState (sockets s) (intervals s) (arrays s) (console s) (lifecycle s)
    (renders s) (socketRef s) (ws_deps s) (batchRef s) (tm_deps s)
    (f (calls s)) (batches s) (arrived s).

Definition set_batches (f : list delivery -> list delivery) (s : state) : state :=
  mkState (sockets s) (intervals s) (arrays s) (console s) (lifecycle s)
    (renders s) (socketRef s) (ws_deps s) (batchRef s) (tm_deps s)
    (calls s) (f (batches s)) (arrived s).

Definition set_arrived (f : list Message -> list Message) (s : state) : state :=
  mkState (sockets s) (intervals s) (arrays s) (console s) (lifecycle s)
    (renders s) (socketRef s) (ws_deps s) (batchRef s) (tm_deps s)
    (calls s) (batches s) (f (arrived s)).

(** The store before the component is first rendered: no host object
    exists and [socketRef.current] is [null], as [useRef(null)] makes it;
    [batchRef.current] is assigned by the first render. *)
Definition initial : state :=
  mkState [] [] [] [] Fresh 0 None None 0 None [] [] [].

(** ** Computations that read and write the store and may throw *)

Definition M (A : Type) : Type := state -> completion A * state.

Definition ret {A} (a : A) : M A := fun s => (Normal a, s).

Definition bind {A B} (c : M A) (k : A -> M B) : M B :=
  fun s =>
    match c s with
    | (Normal a, s') => k a s'
    | (Throw e, s') => (Throw e, s')
    end.

Definition throw {A} (e : exn) : M A := fun s => (Throw e, s).
Definition gets {A} (f : state -> A) : M A := fun s => (Normal (f s), s).
Definition modify (f : state -> state) : M unit := fun s => (Normal tt, f s).

Notation "'do' x <- c ; k" := (bind c (fun x => k))
  (at level 10, x name, c at level 100, k at level 200).
Notation "c ;; k" := (bind c (fun _ => k))
  (at level 100, k at level 200, right associativity).

Definition when (b : bool) (c : M unit) : M unit := if b then c else ret tt.

Fixpoint for_each {A} (l : list A) (f : A -> M unit) : M unit :=
  match l with
  | [] => ret tt
  | x :: l' => f x ;; for_each l' f
  end.

(** ** Host operations *)

Definition console_log (line : string) : M unit :=
  modify (set_console (fun c => c ++ [line])).

(** [new WebSocket(url)]: a socket in state CONNECTING with no handler. *)
Definition new_WebSocket (url : string) : M nat :=
  do i <- gets (fun s => length (sockets s));
  modify (set_sockets (fun l => l ++ [mkWebSocket url CONNECTING None None None])) ;;
  ret i.

Definition with_socket (i : nat) (f : WebSocket -> WebSocket) : M unit :=
  modify (set_sockets (alter f i)).

(** [ws.close()]: starts the closing handshake unless it has started. *)
Definition close_socket (w : WebSocket) : WebSocket :=
  match ws_readyState w with
  | CONNECTING | OPEN =>
      mkWebSocket (ws_url w) CLOSING (ws_onopen w) (ws_onmessage w) (ws_onclose w)
  | CLOSING | CLOSED => w
  end.

Definition set_readyState (r : readyState) (w : WebSocket) : WebSocket :=
  mkWebSocket (ws_url w) r (ws_onopen w) (ws_onmessage w) (ws_onclose w).
Definition set_onopen (h : handler) (w : WebSocket) : WebSocket :=
  mkWebSocket (ws_url w) (ws_readyState w) (Some h) (ws_onmessage w) (ws_onclose w).
Definition set_onmessage (h : handler) (w : WebSocket) : WebSocket :=
  mkWebSocket (ws_url w) (ws_readyState w) (ws_onopen w) (Some h) (ws_onclose w).
Definition set_onclose (h : handler) (w : WebSocket) : WebSocket :=
  mkWebSocket (ws_url w) (ws_readyState w) (ws_onopen w) (ws_onmessage w) (Some h).

(** [setInterval(callback, delay)] and [clearInterval(id)]. *)
Definition setInterval (onBatch : nat) (delay : Z) : M nat :=
  do i <- gets (fun s => length (intervals s));
  modify (set_intervals (fun l => l ++ [mkInterval delay onBatch true])) ;;
  ret i.

Definition clear (iv : Interval) : Interval :=
  mkInterval (iv_delay iv) (iv_onBatch iv) false.

Definition clearInterval (i : nat) : M unit :=
  modify (set_intervals (alter clear i)).

(** The array literal [[]]: a new, empty array object. *)
Definition new_array : M nat :=
  do a <- gets (fun s => length (arrays s));
  modify (set_arrays (fun h => h ++ [[]])) ;;
  ret a.

(** The contents of [batchRef.current]. *)
Definition buffer (s : state) : list Message :=
  default [] (arrays s !! batchRef s).

(** ** useWebSocket.js *)

(** An assignment to, or a method call on, [socketRef.current]; on [null]
    either is a [TypeError]. *)
Definition on_current_socket (f : WebSocket -> WebSocket) : M unit :=
  do r <- gets socketRef;
  match r with
  | Some i => with_socket i f
  | None => throw TypeError
  end.

(** The body of the effect, lines 7-10. *)
Definition ws_effect (url : string) (onMessage : callback) : M unit :=
  do i <- new_WebSocket url;
  modify (set_socketRef (Some i)) ;;
  on_current_socket (set_onopen LogConnected) ;;
  on_current_socket (set_onmessage (DecodeAndForward onMessage)) ;;
  on_current_socket (set_onclose LogDisconnected).

(** The cleanup the effect returns, lines 12-14: [socketRef.current.close()]. *)
Definition ws_cleanup : M unit := on_current_socket close_socket.

(** [useEffect] compares the dependency arrays element by element with
    [Object.is]; an effect that was never run always runs. *)
Definition deps_changed {D} `{EqDecision D} (old : option D) (new : D) : bool :=
  match old with
  | None => true
  | Some d => bool_decide (d <> new)
  end.

(** What React does with the effect of [useWebSocket] when a render is
    committed: the old cleanup runs if the dependencies changed, and later
    the effect runs again. *)
Definition ws_destroy (url : string) (onMessage : callback) : M unit :=
  do old <- gets ws_deps;
  match old with
  | Some d => when (bool_decide (d <> (url, onMessage))) ws_cleanup
  | None => ret tt
  end.

Definition ws_create (url : string) (onMessage : callback) : M unit :=
  do old <- gets ws_deps;
  when (deps_changed old (url, onMessage))
    (ws_effect url onMessage ;;
     modify (set_ws_deps (Some (url, onMessage)))).

(** One render of a component that calls [useWebSocket(url, onMessage)],
    followed by the commit of its effect.  The value returned, line 17, is
    read while rendering, before the effect of this render runs. *)
Definition useWebSocket (url : string) (onMessage : callback) : M (option nat) :=
  do socket <- gets socketRef;
  ws_destroy url onMessage ;;
  ws_create url onMessage ;;
  ret socket.

(** ** batchingMessages.js *)

(** The arrow function of line 5-7: [batchRef.current.push(message)].
    [arrived] records every message it is given. *)
Definition push (message : Message) : M unit :=
  modify (fun s =>
    set_arrived (fun l => l ++ [message])
      (set_arrays (alter (fun a => a ++ [message]) (batchRef s)) s)).

(** Calling an [onMessage] reference.  A function of the caller is only
    observed: the handler has no statement after the call, so nothing the
    callee does, throwing included, changes what the hook does next. *)
Definition call_onMessage (onMessage : callback) (message : Message) : M unit :=
  match onMessage with
  | Extern f => modify (set_calls (fun l => l ++ [(f, message)]))
  | PushClosure _ => push message
  end.

(** Running a handler installed by [useWebSocket] on an event whose
    [data] is [data]. *)
Definition run_handler (h : handler) (data : string) : M unit :=
  match h with
  | LogConnected => console_log "Websocket connected!"
  | DecodeAndForward onMessage =>
      match JSON_parse data with
      | Some message => call_onMessage onMessage message
      | None => throw SyntaxError
      end
  | LogDisconnected => console_log "Websocket disconnected!"
  end.

Definition run_handler_opt (h : option handler) (data : string) : M unit :=
  match h with
  | Some h => run_handler h data
  | None => ret tt
  end.

(** [onBatchMessage(batchRef.current)], line 12: the array itself is
    passed; the consumer reacts as [r] says. *)
Definition call_onBatchMessage (onBatchMessage : nat) (r : reaction Message) : M unit :=
  do a <- gets batchRef;
  do items <- gets buffer;
  modify (set_batches (fun l => l ++ [mkDelivery onBatchMessage a items])) ;;
  for_each (during r) push ;;
  when (throws r) (throw ConsumerError).

(** The callback given to [setInterval], lines 10-15. *)
Definition interval_callback (onBatchMessage : nat) (r : reaction Message) : M unit :=
  do items <- gets buffer;
  if (length items =? 0)%nat then ret tt
  else
    call_onBatchMessage onBatchMessage r ;;
    do fresh <- new_array;
    modify (set_batchRef fresh).

(** The effect of lines 9-20 and its cleanup, scheduled like the one of
    [useWebSocket]. *)
Definition tm_destroy (batchInterval : Z) (onBatchMessage : nat) : M unit :=
  do old <- gets tm_deps;
  match old with
  | Some (d, interval) =>
      when (bool_decide (d <> (batchInterval, onBatchMessage)))
        (clearInterval interval)
  | None => ret tt
  end.

Definition tm_create (batchInterval : Z) (onBatchMessage : nat) : M unit :=
  do old <- gets tm_deps;
  when (deps_changed (fst <$> old) (batchInterval, onBatchMessage))
    (do interval <- setInterval onBatchMessage batchInterval;
     modify (set_tm_deps (Some (batchInterval, onBatchMessage, interval)))).

(** One render of a component that calls
    [useBatchedMessages(url, onBatchMessage, batchInterval)], followed by
    the commit: the cleanups of the effects whose dependencies changed run
    first, in hook order, then those effects.  [None] for the last argument
    is [undefined], which the default parameter replaces by 100.  The array
    literal of [useRef([])] is evaluated at every render and kept only by
    the first. *)
Definition useBatchedMessages
    (url : string) (onBatchMessage : nat) (batchInterval : option Z) : M unit :=
  let batchInterval := default 100%Z batchInterval in
  do p <- gets lifecycle;
  do a <- new_array;
  when (bool_decide (p = Fresh)) (modify (set_batchRef a)) ;;
  do n <- gets renders;
  modify (set_renders (S n)) ;;
  let onMessage := PushClosure n in
  do socket <- gets socketRef;
  ws_destroy url onMessage ;;
  tm_destroy batchInterval onBatchMessage ;;
  ws_create url onMessage ;;
  tm_create batchInterval onBatchMessage.

(** Unmounting the component runs the cleanup of every mounted effect. *)
Definition unmount : M unit :=
  do ws <- gets ws_deps;
  when (bool_decide (is_Some ws)) ws_cleanup ;;
  do tm <- gets tm_deps;
  match tm with
  | Some (_, interval) => clearInterval interval
  | None => ret tt
  end ;;
  modify (set_ws_deps None) ;;
  modify (set_tm_deps None) ;;
  modify (set_lifecycle Unmounted).

(** ** The event loop

    Everything runs on one thread: the host takes one event at a time and
    runs its handler to completion.  An exception that escapes a handler is
    reported by the host and the loop goes on with the store as the handler
    left it.  A component instance that was unmounted is not rendered
    again: a later mount is another instance, with cells of its own. *)

Inductive event :=
| Render (url : string) (onBatchMessage : nat) (batchInterval : option Z)
| Unmount
| SocketOpen (i : nat)
| SocketMessage (i : nat) (data : string)
| SocketClose (i : nat)
| Tick (i : nat) (r : reaction Message).

(** The connection of socket [i] is established. *)
Definition fire_open (i : nat) : M unit :=
  do w <- gets (fun s => sockets s !! i);
  match w with
  | Some w =>
      if decide (ws_readyState w = CONNECTING)
      then with_socket i (set_readyState OPEN) ;; run_handler_opt (ws_onopen w) ""
      else ret tt
  | None => ret tt
  end.

(** A frame arrives on socket [i]; the host fires [message] events on an
    open socket only. *)
Definition fire_message (i : nat) (data : string) : M unit :=
  do w <- gets (fun s => sockets s !! i);
  match w with
  | Some w =>
      if decide (ws_readyState w = OPEN)
      then run_handler_opt (ws_onmessage w) data
      else ret tt
  | None => ret tt
  end.

(** The connection of socket [i] is closed, or could not be established. *)
Definition fire_close (i : nat) : M unit :=
  do w <- gets (fun s => sockets s !! i);
  match w with
  | Some w =>
      if decide (ws_readyState w = CLOSED) then ret tt
      else with_socket i (set_readyState CLOSED) ;; run_handler_opt (ws_onclose w) ""
  | None => ret tt
  end.

(** Interval [i] fires, unless it was cleared. *)
Definition fire_tick (i : nat) (r : reaction Message) : M unit :=
  do iv <- gets (fun s => intervals s !! i);
  match iv with
  | Some iv => if iv_live iv then interval_callback (iv_onBatch iv) r else ret tt
  | None => ret tt
  end.

Definition dispatch (e : event) : M unit :=
  match e with
  | Render url onBatchMessage batchInterval =>
      do p <- gets lifecycle;
      match p with
      | Unmounted => ret tt
      | _ =>
          useBatchedMessages url onBatchMessage batchInterval ;;
          modify (set_lifecycle Mounted)
      end
  | Unmount =>
      do p <- gets lifecycle;
      match p with
      | Mounted => unmount
      | _ => ret tt
      end
  | SocketOpen i => fire_open i
  | SocketMessage i data => fire_message i data
  | SocketClose i => fire_close i
  | Tick i r => fire_tick i r
  end.

Definition step (s : state) (e : event) : state := snd (dispatch e s).

Definition run (s : state) (evs : list event) : state := fold_left step evs s.

End Hooks.

Arguments state Message : clear implicits.
Arguments event Message : clear implicits.
Arguments delivery Message : clear implicits.

(** ** A decoder to run the model on

    The model is parametric in [JSON.parse].  To evaluate it on concrete
    frames it is instantiated with the restriction of [JSON.parse] to the
    texts that are unsigned decimal integers ("0", "7", "42"); any other
    text is taken as undecodable there, as the text "{" is for
    [JSON.parse] itself. *)

Definition digit_of (c : Ascii.ascii) : option nat :=
  let n := Ascii.nat_of_ascii c in
  if bool_decide (48 <= n <= 57)%nat then Some (n - 48)%nat else None.

Fixpoint digits_value (acc : nat) (s : string) : option nat :=
  match s with
  | EmptyString => Some acc
  | String c s' =>
      match digit_of c with
      | Some d => digits_value (10 * acc + d) s'
      | None => None
      end
  end.

Definition parse_integer (s : string) : option nat :=
  match s with
  | EmptyString => None
  | String c EmptyString => digit_of c
  | String c _ =>
      if bool_decide (Ascii.nat_of_ascii c = 48%nat) then None
      else digits_value 0 s
  end.

(** A consumer call that returns, and one that throws; [during] are the
    messages appended while the call runs. *)
Definition ok {Message} (during : list Message) : reaction Message :=
  mkReaction during false.
Definition failing {Message} (during : list Message) : reaction Message :=
  mkReaction during true.

(** Concrete stores to run the model on: a component that has been
    rendered once on the address [feed] with consumer 7 and the default
    interval, whose socket has opened; and the same after the frame ["1"]. *)
Definition feed : string := "wss://feed".

Definition mounted_open : state nat :=
  run parse_integer initial [Render feed 7 None; SocketOpen 0].

Definition one_buffered : state nat :=
  run parse_integer mounted_open [SocketMessage 0 "1"].

(** A store in which a component that calls [useWebSocket] directly has
    been rendered once. *)
Definition adapter_mounted : state nat :=
  snd (useWebSocket feed (Extern 0) initial).

(** ** README.md: the Redux side

    The README shows the consumer the batches are meant for: an action
    creator and a reducer that folds a batch of stock updates into the
    store's state (lines 100-122).  A state is a JS object from stock ids to
    prices, a finite map here; the object spread [{...a, ...b}] keeps the
    keys of [a] that [b] does not have and takes the others from [b]. *)

Section Redux.

Context {Price : Type}.

Record stock := mkStock {
  stock_id : string;
  stock_price : Price
}.

Record action := mkAction {
  action_type : string;
  action_payload : list stock
}.

(** [batchStockUpdates], lines 100-103. *)
Definition batchStockUpdates (updates : list stock) : action :=
  mkAction "BATCH_STOCK_UPDATES" updates.

Definition spread (a b : gmap string Price) : gmap string Price := b ∪ a.

(** The callback given to [reduce], line 115:
    [(acc, stock) => ({ ...acc, [stock.id]: stock.price })]. *)
Definition add_stock (acc : gmap string Price) (s : stock) : gmap string Price :=
  spread acc {[ stock_id s := stock_price s ]}.

(** [stockReducer], lines 109-122; [None] is [undefined], which the
    default parameter replaces by the empty object. *)
Definition stockReducer (state : option (gmap string Price)) (a : action)
    : gmap string Price :=
  let state := default ∅ state in
  if decide (action_type a = "BATCH_STOCK_UPDATES")
  then spread state (foldl add_stock ∅ (action_payload a))
  else state.

(** Dispatching the delivered batches one after the other, as
    [(batch) => dispatch(batchStockUpdates(batch))] does (lines 199-203). *)
Definition dispatch_batches (state : gmap string Price) (bs : list (list stock))
    : gmap string Price :=
  foldl (fun st b => stockReducer (Some st) (batchStockUpdates b)) state bs.

(** The price of the last update for [k] in a batch, if there is one. *)
Definition last_price (k : string) (b : list stock) : option Price :=
  stock_price <$> last (filter (fun s => stock_id s = k) b).

End Redux.

Arguments stock Price : clear implicits.
Arguments action Price : clear implicits.

(** A second decoder, for the messages of the README's reducer: the
    restriction of [JSON.parse] to the texts of the form
    [{"id":"AAPL","price":101}], with an id of letters and digits and an
    unsigned decimal integer as price, and no white space. *)

Definition quote : string := String (Ascii.ascii_of_nat 34) EmptyString.

Definition is_id_char (c : Ascii.ascii) : bool :=
  let n := Ascii.nat_of_ascii c in
  bool_decide (48 <= n <= 57)%nat || bool_decide (65 <= n <= 90)%nat
  || bool_decide (97 <= n <= 122)%nat.

Fixpoint strip_prefix (p s : string) : option string :=
  match p with
  | EmptyString => Some s
  | String c p' =>
      match s with
      | String d s' => if decide (c = d) then strip_prefix p' s' else None
      | EmptyString => None
      end
  end.

(** The characters up to the closing quote, and what follows it. *)
Fixpoint read_id (s : string) : option (string * string) :=
  match s with
  | EmptyString => None
  | String c s' =>
      if decide (Ascii.nat_of_ascii c = 34)%nat then Some (EmptyString, s')
      else if is_id_char c then
        match read_id s' with
        | Some (a, rest) => Some (String c a, rest)
        | None => None
        end
      else None
  end.

(** The text before a final closing brace. *)
Fixpoint strip_last_brace (s : string) : option string :=
  match s with
  | EmptyString => None
  | String c EmptyString =>
      if decide (Ascii.nat_of_ascii c = 125)%nat then Some EmptyString else None
  | String c s' => String c <$> strip_last_brace s'
  end.

Definition parse_stock (s : string) : option (stock nat) :=
  match strip_prefix ("{" +:+ quote +:+ "id" +:+ quote +:+ ":" +:+ quote) s with
  | Some s1 =>
      match read_id s1 with
      | Some (id, s2) =>
          match strip_prefix ("," +:+ quote +:+ "price" +:+ quote +:+ ":") s2 with
          | Some s3 =>
              match strip_last_brace s3 with
              | Some digits => mkStock id <$> parse_integer digits
              | None => None
              end
          | None => None
          end
      | None => None
      end
  | None => None
  end.

(** The frame [{"id":id,"price":price}]. *)
Definition stock_frame (id price : string) : string :=
  "{" +:+ quote +:+ "id" +:+ quote +:+ ":" +:+ quote +:+ id +:+ quote +:+
  "," +:+ quote +:+ "price" +:+ quote +:+ ":" +:+ price +:+ "}".

(** The component rendered twice with the same arguments, the first
    socket having opened in between. *)
Definition rerendered : state nat :=
  run parse_integer initial [Render feed 7 None; SocketOpen 0; Render feed 7 None].

(** * Vocabulary of the properties *)

Section Vocabulary.

Context {Message : Type}.

Abbreviation state := (state Message).
Abbreviation event := (event Message).

Implicit Types (s : state) (e : event) (r : reaction Message).

(** The socket [useWebSocket]'s effect leaves behind. *)
Definition fresh_socket (url : string) (onMessage : callback) : WebSocket :=
  mkWebSocket url CONNECTING (Some LogConnected)
    (Some (DecodeAndForward onMessage)) (Some LogDisconnected).

(** Appending a list of messages to [batchRef.current]. *)
Definition push_all (ms : list Message) (s : state) : state :=
  set_arrived (fun l => l ++ ms)
    (set_arrays (alter (fun a => a ++ ms) (batchRef s)) s).

(** The store once [onBatchMessage(batchRef.current)] has been called and
    the consumer has reacted, before line 13 is reached. *)
Definition delivered_to (f : nat) r s : state :=
  push_all (during r)
    (set_batches (fun l => l ++ [mkDelivery f (batchRef s) (buffer s)]) s).

(** The store after a flush that ran to its end. *)
Definition swapped (f : nat) r s : state :=
  set_batchRef (length (arrays s))
    (set_arrays (fun h => h ++ [[]]) (delivered_to f r s)).

(** The events of the transport, as opposed to renders, unmounting and
    timer ticks. *)
Definition is_socket_event e : bool :=
  match e with
  | SocketOpen _ | SocketMessage _ _ | SocketClose _ => true
  | _ => false
  end.

(** [s'] differs from [s] by socket events only, during which the messages
    [since] were appended to the buffer. *)
Record frames_only (since : list Message) s s' : Prop := {
  fo_intervals : intervals s' = intervals s;
  fo_batchRef : batchRef s' = batchRef s;
  fo_batches : batches s' = batches s;
  fo_lifecycle : lifecycle s' = lifecycle s;
  fo_renders : renders s' = renders s;
  fo_socketRef : socketRef s' = socketRef s;
  fo_ws_deps : ws_deps s' = ws_deps s;
  fo_tm_deps : tm_deps s' = tm_deps s;
  fo_sockets : length (sockets s') = length (sockets s);
  fo_arrived : arrived s' = arrived s ++ since;
  fo_arrays : arrays s' = alter (fun a => a ++ since) (batchRef s) (arrays s)
}.

(** What holds of every store a component instance reaches: before the
    first render nothing exists; while mounted, the socket effect's key is a
    closure of an earlier render, the handle names a socket, and the timer
    of the current key is live; the buffer is an existing array; and no
    timer but the current one is live. *)
Record inv s : Prop := {
  inv_fresh :
    lifecycle s = Fresh ->
    sockets s = [] /\ intervals s = [] /\ ws_deps s = None /\ tm_deps s = None /\
    batches s = [] /\ arrived s = [] /\ arrays s = [] /\ batchRef s = 0;
  inv_unmounted :
    lifecycle s = Unmounted -> ws_deps s = None /\ tm_deps s = None;
  inv_mounted :
    lifecycle s = Mounted ->
    exists u n k d f t,
      ws_deps s = Some (u, PushClosure n) /\ n < renders s /\
      socketRef s = Some k /\ k < length (sockets s) /\
      tm_deps s = Some (d, f, t) /\
      intervals s !! t = Some (mkInterval d f true);
  inv_batchRef :
    lifecycle s <> Fresh -> batchRef s < length (arrays s);
  inv_live :
    forall i iv, intervals s !! i = Some iv -> iv_live iv = true ->
    exists d, tm_deps s = Some (d, i)
}.

(** A socket on which [close()] has been called is closing or closed. *)
Definition closing (w : WebSocket) : Prop :=
  ws_readyState w = CLOSING \/ ws_readyState w = CLOSED.

(** The adapter cells are well formed when the handle names a socket that
    exists and a mounted effect has set the handle. *)
Definition ws_wf s : Prop :=
  (forall k, socketRef s = Some k -> k < length (sockets s)) /\
  (is_Some (ws_deps s) -> is_Some (socketRef s)).

(** C4 as stated: the frame is logged and dropped, that is, handling it
    writes a line to the console and changes nothing else. *)
Definition drops_and_logs (JSON_parse : string -> option Message)
    s (i : nat) (data : string) : Prop :=
  let s' := step JSON_parse s (SocketMessage i data) in
  (exists line, console s' = console s ++ [line]) /\
  sockets s' = sockets s /\ arrays s' = arrays s /\
  arrived s' = arrived s /\ calls s' = calls s /\ batches s' = batches s.

(** The messages handed to the consumer so far, batch after batch. *)
Definition delivered s : list Message := concat (d_items <$> batches s).

(** An event at which no [onBatchMessage] invocation throws. *)
Definition returns e : bool :=
  match e with
  | Tick _ r => negb (throws r)
  | _ => true
  end.

(** An event at which no [onBatchMessage] invocation throws and nothing is
    appended to the buffer while [onBatchMessage] runs. *)
Definition quiet e : bool :=
  match e with
  | Tick _ r => negb (throws r) && match during r with [] => true | _ => false end
  | _ => true
  end.

(** C1 as stated: the flush at this tick has swapped the buffer before
    anything could be appended, so what arrived while [onBatchMessage] was
    running is in the new buffer, which is not the array delivered. *)
Definition swaps_before_delivery (JSON_parse : string -> option Message)
    s (i : nat) r : Prop :=
  let s' := step JSON_parse s (Tick i r) in
  buffer s' = during r /\ batchRef s' <> batchRef s.

(** C2 as stated: the batches delivered so far, followed by what is still
    buffered, are the arrivals, each once, and no array was handed to the
    consumer twice. *)
Definition exactly_once s : Prop :=
  delivered s ++ buffer s = arrived s /\ NoDup (d_array <$> batches s).

(** What holds of the deliveries as long as every [onBatchMessage] call was
    quiet: the partition, and every delivered array is an existing array
    other than the buffer that still holds what was delivered. *)
Record tidy s : Prop := {
  tidy_partition : delivered s ++ buffer s = arrived s;
  tidy_nodup : NoDup (d_array <$> batches s);
  tidy_frozen :
    Forall (fun d => d_array d < batchRef s /\
                     arrays s !! d_array d = Some (d_items d)) (batches s)
}.

(** The timers that [clearInterval] has not cancelled. *)
Definition live_timers s : list Interval :=
  filter (fun iv => iv_live iv = true) (intervals s).

(** An event during whose [onBatchMessage] call, if any, nothing is
    appended to the buffer; the call may throw. *)
Definition calm e : bool :=
  match e with
  | Tick _ r => match during r with [] => true | _ => false end
  | _ => true
  end.

(** A socket whose connection is being established or is established. *)
Definition connected (w : WebSocket) : Prop :=
  ws_readyState w = CONNECTING \/ ws_readyState w = OPEN.

Global Instance connected_dec (w : WebSocket) : Decision (connected w).
Proof. unfold connected. apply _. Defined.

(** What holds of the sockets of every store a component instance
    reaches: each carries the three handlers [useWebSocket] installs, its
    [onmessage] forwarding to a per-message closure; a socket that is not
    closing is the one in [socketRef.current] of a mounted component; and
    there is one socket per render. *)
Record wired s : Prop := {
  wired_handlers :
    forall i w, sockets s !! i = Some w ->
      ws_onopen w = Some LogConnected /\
      (exists n, ws_onmessage w = Some (DecodeAndForward (PushClosure n))) /\
      ws_onclose w = Some LogDisconnected;
  wired_current :
    forall i w, sockets s !! i = Some w -> connected w ->
      lifecycle s = Mounted /\ socketRef s = Some i;
  wired_count : length (sockets s) = renders s
}.

(** The store after the host has fired [open], respectively [close], on
    a socket that carries the handlers of [useWebSocket]. *)
Definition after_open (i : nat) s : state :=
  match sockets s !! i with
  | Some w =>
      if decide (ws_readyState w = CONNECTING)
      then set_console (fun c => c ++ ["Websocket connected!"%string])
             (set_sockets (alter (set_readyState OPEN) i) s)
      else s
  | None => s
  end.

Definition after_close (i : nat) s : state :=
  match sockets s !! i with
  | Some w =>
      if decide (ws_readyState w = CLOSED) then s
      else set_console (fun c => c ++ ["Websocket disconnected!"%string])
             (set_sockets (alter (set_readyState CLOSED) i) s)
  | None => s
  end.

End Vocabulary.

(** * Properties *)

Section Facts.

Context {Message : Type}.
Variable JSON_parse : string -> option Message.

Abbreviation state := (state Message).
Abbreviation event := (event Message).
Abbreviation delivery := (delivery Message).

Implicit Types (s : state) (e : event) (evs : list event) (r : reaction Message).

(** ** What each operation does to the store *)

Lemma alter_snoc {A} (f : A -> A) (l : list A) (x : A) :
  alter f (length l) (l ++ [x]) = l ++ [f x].
Proof.
  replace (length l) with (length l + 0) by lia.
  by rewrite alter_app_r.
Qed.

Lemma ws_effect_eq url onMessage s :
  ws_effect url onMessage s =
  (Normal tt,
   set_socketRef (Some (length (sockets s)))
     (set_sockets (fun l => l ++ [fresh_socket url onMessage]) s)).
Proof.
  destruct s. unfold ws_effect, on_current_socket, new_WebSocket, with_socket,
    set_socketRef, set_sockets, bind, gets, modify, ret. simpl.
  by rewrite !alter_snoc.
Qed.

Lemma ws_cleanup_eq s k :
  socketRef s = Some k ->
  ws_cleanup s = (Normal tt, set_sockets (alter close_socket k) s).
Proof.
  intros H. unfold ws_cleanup, on_current_socket, with_socket, bind, gets, modify.
  by rewrite H.
Qed.

Lemma push_all_nil s : push_all [] s = s.
Proof.
  destruct s. unfold push_all, set_arrived, set_arrays. simpl.
  rewrite app_nil_r. f_equal.
  apply list_alter_id. intros; apply app_nil_r.
Qed.

Lemma push_all_app ms1 ms2 s :
  push_all ms2 (push_all ms1 s) = push_all (ms1 ++ ms2) s.
Proof.
  destruct s. unfold push_all, set_arrived, set_arrays. simpl.
  rewrite <- !app_assoc. f_equal.
  rewrite list_alter_alter_eq. apply list_alter_ext; [|done].
  intros. simpl. by rewrite app_assoc.
Qed.

Lemma push_eq m s : push m s = (Normal tt, push_all [m] s).
Proof. reflexivity. Qed.

Lemma for_each_push ms s : for_each ms push s = (Normal tt, push_all ms s).
Proof.
  revert s. induction ms as [|m ms IH]; intros s.
  - simpl. by rewrite push_all_nil.
  - simpl. unfold bind at 1. rewrite push_eq, IH.
    by rewrite push_all_app.
Qed.

Lemma buffer_push_all ms s :
  batchRef s < length (arrays s) -> buffer (push_all ms s) = buffer s ++ ms.
Proof.
  intros H. unfold buffer, push_all. destruct s; simpl in *.
  rewrite list_lookup_alter_eq.
  destruct (lookup_lt_is_Some_2 _ _ H) as [a ->]. done.
Qed.

Lemma call_onBatchMessage_eq f r s :
  call_onBatchMessage f r s =
  (if throws r then Throw ConsumerError else Normal tt, delivered_to f r s).
Proof.
  unfold call_onBatchMessage, bind, gets, modify, when.
  rewrite for_each_push. by destruct (throws r).
Qed.

Lemma interval_callback_empty f r s :
  buffer s = [] -> interval_callback f r s = (Normal tt, s).
Proof. intros H. unfold interval_callback, bind, gets. by rewrite H. Qed.

Lemma interval_callback_returns f r s :
  buffer s <> [] -> throws r = false ->
  interval_callback f r s = (Normal tt, swapped f r s).
Proof.
  intros Hne Hr. unfold interval_callback, bind at 1, gets at 1.
  destruct (buffer s) eqn:Hb; [done|]. simpl.
  unfold bind at 1. rewrite call_onBatchMessage_eq, Hr.
  unfold bind, new_array, gets, modify, ret, swapped. simpl.
  by rewrite length_alter.
Qed.

Lemma interval_callback_throws f r s :
  buffer s <> [] -> throws r = true ->
  interval_callback f r s = (Throw ConsumerError, delivered_to f r s).
Proof.
  intros Hne Hr. unfold interval_callback, bind at 1, gets at 1.
  destruct (buffer s) eqn:Hb; [done|]. simpl.
  unfold bind at 1. by rewrite call_onBatchMessage_eq, Hr.
Qed.

Lemma fire_tick_live i iv r s :
  intervals s !! i = Some iv -> iv_live iv = true ->
  fire_tick i r s = interval_callback (iv_onBatch iv) r s.
Proof. intros H1 H2. unfold fire_tick, bind, gets. by rewrite H1, H2. Qed.

Lemma fire_tick_cases i r s :
  fire_tick i r s = (Normal tt, s) \/
  exists iv, intervals s !! i = Some iv /\ iv_live iv = true /\ buffer s <> [] /\
    fire_tick i r s =
      if throws r then (Throw ConsumerError, delivered_to (iv_onBatch iv) r s)
      else (Normal tt, swapped (iv_onBatch iv) r s).
Proof.
  destruct (intervals s !! i) as [iv|] eqn:Hi; cycle 1.
  { left. unfold fire_tick, bind, gets. by rewrite Hi. }
  destruct (iv_live iv) eqn:Hl; cycle 1.
  { left. unfold fire_tick, bind, gets. by rewrite Hi, Hl. }
  rewrite (fire_tick_live _ _ _ _ Hi Hl).
  destruct (decide (buffer s = [])) as [Hb|Hb].
  { left. by apply interval_callback_empty. }
  right. exists iv. repeat split; try done.
  destruct (throws r) eqn:Hr.
  - by apply interval_callback_throws.
  - by apply interval_callback_returns.
Qed.

(** ** Socket events

    A socket event changes sockets, console and [calls], and may append
    to the buffer through the per-message handler; it leaves the hook cells,
    the timers and the deliveries alone. *)

Lemma alter_app_nil (i : nat) (h : list (list Message)) :
  alter (fun a => a ++ []) i h = h.
Proof. apply list_alter_id. intros; apply app_nil_r. Qed.

Lemma frames_only_refl s : frames_only [] s s.
Proof. split; try done; [by rewrite app_nil_r | by rewrite alter_app_nil]. Qed.

Lemma frames_only_trans ms1 ms2 s1 s2 s3 :
  frames_only ms1 s1 s2 -> frames_only ms2 s2 s3 -> frames_only (ms1 ++ ms2) s1 s3.
Proof.
  intros [] []. split; try congruence.
  - rewrite fo_arrived1, fo_arrived0. by rewrite app_assoc.
  - rewrite fo_arrays1, fo_arrays0, fo_batchRef0.
    rewrite list_alter_alter_eq. apply list_alter_ext; [|done].
    intros. simpl. by rewrite app_assoc.
Qed.

Lemma frames_only_push_all ms s : frames_only ms s (push_all ms s).
Proof. by split. Qed.

Lemma frames_only_buffer ms s s' :
  frames_only ms s s' -> batchRef s < length (arrays s) ->
  buffer s' = buffer s ++ ms.
Proof.
  intros [] H. unfold buffer. rewrite fo_arrays0, fo_batchRef0.
  rewrite list_lookup_alter_eq.
  by destruct (lookup_lt_is_Some_2 _ _ H) as [a ->].
Qed.

Lemma frames_only_set_sockets g ms s s' :
  length (g (sockets s)) = length (sockets s) ->
  frames_only ms (set_sockets g s) s' -> frames_only ms s s'.
Proof. intros Hg []. split; try done. by rewrite <- Hg. Qed.

Lemma run_handler_frames h data s :
  exists since, frames_only since s (snd (run_handler_opt JSON_parse h data s)).
Proof.
  destruct h as [[|[f|n]|]|]; simpl.
  - exists []. split; try done; [by rewrite app_nil_r | by rewrite alter_app_nil].
  - destruct (JSON_parse data); simpl; exists [];
      (split; try done; [by rewrite app_nil_r | by rewrite alter_app_nil]).
  - destruct (JSON_parse data) as [m|]; simpl.
    + exists [m]. apply frames_only_push_all.
    + exists []. apply frames_only_refl.
  - exists []. split; try done; [by rewrite app_nil_r | by rewrite alter_app_nil].
  - exists []. apply frames_only_refl.
Qed.

Lemma step_socket_event e s :
  is_socket_event e = true ->
  exists since, frames_only since s (step JSON_parse s e).
Proof.
  destruct e as [| |i|i data|i|]; try done; intros _;
    unfold step; simpl.
  - unfold fire_open, bind at 1, gets at 1.
    destruct (sockets s !! i) as [w|]; [|exists []; apply frames_only_refl].
    case_decide; [|exists []; apply frames_only_refl].
    unfold bind, with_socket, modify.
    destruct (run_handler_frames (ws_onopen w) ""
                (set_sockets (alter (set_readyState OPEN) i) s)) as [ms Hms].
    exists ms. eapply frames_only_set_sockets; [|done]. apply length_alter.
  - unfold fire_message, bind at 1, gets at 1.
    destruct (sockets s !! i) as [w|]; [|exists []; apply frames_only_refl].
    case_decide; [|exists []; apply frames_only_refl].
    apply run_handler_frames.
  - unfold fire_close, bind at 1, gets at 1.
    destruct (sockets s !! i) as [w|]; [|exists []; apply frames_only_refl].
    case_decide; [exists []; apply frames_only_refl|].
    unfold bind, with_socket, modify.
    destruct (run_handler_frames (ws_onclose w) ""
                (set_sockets (alter (set_readyState CLOSED) i) s)) as [ms Hms].
    exists ms. eapply frames_only_set_sockets; [|done]. apply length_alter.
Qed.

Lemma run_snoc s evs e :
  run JSON_parse s (evs ++ [e]) = step JSON_parse (run JSON_parse s evs) e.
Proof. unfold run. by rewrite fold_left_app. Qed.

Lemma run_snoc_app s evs1 evs2 :
  run JSON_parse s (evs1 ++ evs2) = run JSON_parse (run JSON_parse s evs1) evs2.
Proof. unfold run. by rewrite fold_left_app. Qed.

Lemma run_socket_events evs s :
  forallb is_socket_event evs = true ->
  exists since, frames_only since s (run JSON_parse s evs).
Proof.
  revert s. induction evs as [|e evs IH]; intros s H.
  - exists []. apply frames_only_refl.
  - simpl in H. apply andb_true_iff in H as [He Hevs].
    destruct (step_socket_event e s He) as [ms1 H1].
    destruct (IH (step JSON_parse s e) Hevs) as [ms2 H2].
    exists (ms1 ++ ms2). simpl. by eapply frames_only_trans.
Qed.

(** ** Renders and unmounting *)

Ltac unfold_setters :=
  cbv beta iota delta
    [set_sockets set_intervals set_arrays set_console set_lifecycle
     set_renders set_socketRef set_ws_deps set_batchRef set_tm_deps
     set_calls set_batches set_arrived
     sockets intervals arrays console lifecycle renders socketRef ws_deps
     batchRef tm_deps calls batches arrived].

Lemma bind_normal {A B} (c : M A) (k : A -> M B) s a s' :
  c s = (Normal a, s') -> bind c k s = k a s'.
Proof. intros H. unfold bind. by rewrite H. Qed.

Lemma bind_gets {A B} (f : state -> A) (k : A -> M B) s :
  bind (gets f) k s = k (f s) s.
Proof. done. Qed.

Lemma bind_modify {B} (f : state -> state) (k : unit -> M B) s :
  bind (modify f) k s = k tt (f s).
Proof. done. Qed.

Lemma bind_ret {A B} (a : A) (k : A -> M B) s : bind (ret a) k s = k a s.
Proof. done. Qed.

Lemma bind_new_array {B} (k : nat -> M B) s :
  bind new_array k s = k (length (arrays s)) (set_arrays (fun h => h ++ [[]]) s).
Proof. done. Qed.

Local Arguments bind : simpl never.
Local Arguments ws_effect : simpl never.

Ltac mstep lem := erewrite bind_normal by (apply lem; simpl; done).
Ltac mrun :=
  repeat (first [rewrite bind_gets | rewrite bind_modify | rewrite bind_ret
                | rewrite bind_new_array ]; cbv beta; simpl).

Lemma ws_destroy_none url onMessage s :
  ws_deps s = None -> ws_destroy url onMessage s = (Normal tt, s).
Proof. intros H. unfold ws_destroy. mrun. by rewrite H. Qed.

Lemma ws_destroy_same url onMessage s :
  ws_deps s = Some (url, onMessage) -> ws_destroy url onMessage s = (Normal tt, s).
Proof.
  intros H. unfold ws_destroy. mrun. rewrite H.
  by rewrite bool_decide_eq_false_2 by (intros E; by apply E).
Qed.

Lemma ws_destroy_changed url onMessage s d k :
  ws_deps s = Some d -> d <> (url, onMessage) -> socketRef s = Some k ->
  ws_destroy url onMessage s = (Normal tt, set_sockets (alter close_socket k) s).
Proof.
  intros H Hd Hk. unfold ws_destroy. mrun. rewrite H.
  rewrite bool_decide_eq_true_2 by done. by apply ws_cleanup_eq.
Qed.

Lemma ws_create_same url onMessage s :
  ws_deps s = Some (url, onMessage) -> ws_create url onMessage s = (Normal tt, s).
Proof.
  intros H. unfold ws_create. mrun. rewrite H. simpl.
  by rewrite bool_decide_eq_false_2 by (intros E; by apply E).
Qed.

Lemma ws_create_changed url onMessage s :
  deps_changed (ws_deps s) (url, onMessage) = true ->
  ws_create url onMessage s =
  (Normal tt,
   set_ws_deps (Some (url, onMessage))
     (set_socketRef (Some (length (sockets s)))
        (set_sockets (fun l => l ++ [fresh_socket url onMessage]) s))).
Proof.
  intros H. unfold ws_create. mrun. rewrite H. simpl.
  mstep ws_effect_eq. by mrun.
Qed.

Lemma tm_destroy_none bi f s :
  tm_deps s = None -> tm_destroy bi f s = (Normal tt, s).
Proof. intros H. unfold tm_destroy. mrun. by rewrite H. Qed.

Lemma tm_destroy_same bi f t s :
  tm_deps s = Some (bi, f, t) -> tm_destroy bi f s = (Normal tt, s).
Proof.
  intros H. unfold tm_destroy. mrun. rewrite H.
  by rewrite bool_decide_eq_false_2 by (intros E; by apply E).
Qed.

Lemma tm_destroy_changed bi f d t s :
  tm_deps s = Some (d, t) -> d <> (bi, f) ->
  tm_destroy bi f s = (Normal tt, set_intervals (alter clear t) s).
Proof.
  intros H Hd. unfold tm_destroy. mrun. rewrite H.
  by rewrite bool_decide_eq_true_2 by done.
Qed.

Lemma tm_create_same bi f t s :
  tm_deps s = Some (bi, f, t) -> tm_create bi f s = (Normal tt, s).
Proof.
  intros H. unfold tm_create. mrun. rewrite H. simpl.
  by rewrite bool_decide_eq_false_2 by (intros E; by apply E).
Qed.

Lemma tm_create_changed bi f s :
  deps_changed (fst <$> tm_deps s) (bi, f) = true ->
  tm_create bi f s =
  (Normal tt,
   set_tm_deps (Some (bi, f, length (intervals s)))
     (set_intervals (fun l => l ++ [mkInterval bi f true]) s)).
Proof. intros H. unfold tm_create. mrun. by rewrite H. Qed.

(** The first render: both effects run, nothing is cleaned up. *)
Lemma useBatchedMessages_fresh url f bi s :
  lifecycle s = Fresh -> ws_deps s = None -> tm_deps s = None ->
  useBatchedMessages url f bi s =
  (Normal tt,
   mkState (sockets s ++ [fresh_socket url (PushClosure (renders s))])
     (intervals s ++ [mkInterval (default 100%Z bi) f true])
     (arrays s ++ [[]]) (console s) Fresh (S (renders s))
     (Some (length (sockets s))) (Some (url, PushClosure (renders s)))
     (length (arrays s))
     (Some (default 100%Z bi, f, length (intervals s)))
     (calls s) (batches s) (arrived s)).
Proof.
  destruct s; simpl. intros -> -> ->.
  unfold useBatchedMessages. mrun.
  mstep ws_destroy_none. mstep tm_destroy_none.
  mstep ws_create_changed. by rewrite tm_create_changed.
Qed.

(** A later render.  The per-message closure is a new function, so the
    socket effect always runs again; the timer effect runs again when
    [batchInterval] or [onBatchMessage] changed. *)
Lemma useBatchedMessages_mounted url f bi s u n k d t :
  lifecycle s <> Fresh ->
  ws_deps s = Some (u, PushClosure n) -> n < renders s ->
  socketRef s = Some k -> tm_deps s = Some (d, t) ->
  useBatchedMessages url f bi s =
  (Normal tt,
   mkState
     (alter close_socket k (sockets s) ++ [fresh_socket url (PushClosure (renders s))])
     (if decide (d = (default 100%Z bi, f)) then intervals s
      else alter clear t (intervals s) ++ [mkInterval (default 100%Z bi) f true])
     (arrays s ++ [[]]) (console s) (lifecycle s) (S (renders s))
     (Some (length (sockets s))) (Some (url, PushClosure (renders s)))
     (batchRef s)
     (if decide (d = (default 100%Z bi, f)) then Some (d, t)
      else Some (default 100%Z bi, f, length (intervals s)))
     (calls s) (batches s) (arrived s)).
Proof.
  destruct s as [sk iv ar co lc rn sr wd br td cl bt av]; simpl.
  intros Hp -> Hn -> ->.
  assert ((u, PushClosure n) <> (url, PushClosure rn)) as Hw
    by (intros [=]; lia).
  unfold useBatchedMessages. mrun.
  erewrite (bind_normal (when _ _)); cycle 1.
  { simpl. by rewrite bool_decide_eq_false_2 by done. }
  mrun.
  erewrite (bind_normal (ws_destroy _ _)); cycle 1.
  { by eapply ws_destroy_changed. }
  destruct d as [d0 f0].
  destruct (decide ((d0, f0) = (default 100%Z bi, f))) as [Heq|Hne].
  - injection Heq as -> ->.
    erewrite (bind_normal (tm_destroy _ _)); cycle 1.
    { by eapply tm_destroy_same. }
    erewrite (bind_normal (ws_create _ _)); cycle 1.
    { apply ws_create_changed. simpl. by rewrite bool_decide_eq_true_2. }
    erewrite tm_create_same by done.
    unfold_setters. by rewrite length_alter.
  - erewrite (bind_normal (tm_destroy _ _)); cycle 1.
    { by eapply tm_destroy_changed. }
    erewrite (bind_normal (ws_create _ _)); cycle 1.
    { apply ws_create_changed. simpl. by rewrite bool_decide_eq_true_2. }
    rewrite tm_create_changed; cycle 1.
    { simpl. by rewrite bool_decide_eq_true_2. }
    unfold_setters. by rewrite !length_alter.
Qed.

Lemma unmount_mounted s d k t :
  ws_deps s = Some d -> socketRef s = Some k -> tm_deps s = Some t ->
  unmount s =
  (Normal tt,
   mkState (alter close_socket k (sockets s)) (alter clear (snd t) (intervals s))
     (arrays s) (console s) Unmounted (renders s) (socketRef s) None
     (batchRef s) None (calls s) (batches s) (arrived s)).
Proof.
  destruct s as [sk iv ar co lc rn sr wd br td cl bt av]; simpl.
  intros -> -> ->. destruct t as [[d0 f0] t0].
  unfold unmount. mrun.
  erewrite bind_normal by (by apply ws_cleanup_eq).
  mrun. unfold clearInterval. by mrun.
Qed.

(** ** The invariant of a component instance *)

Lemma inv_initial : inv (@initial Message).
Proof. split; simpl; done. Qed.

(** Before the first render there is no socket and no timer, so only a
    render does anything. *)
Lemma step_fresh s e :
  inv s -> lifecycle s = Fresh ->
  (forall url f bi, e <> Render url f bi) ->
  step JSON_parse s e = s.
Proof.
  intros Hinv Hf Hne. destruct (inv_fresh _ Hinv Hf) as (Hs & Hi & _).
  destruct e as [url f bi| |i|i data|i|i r]; unfold step; simpl.
  - by destruct (Hne url f bi).
  - unfold bind, gets. by rewrite Hf.
  - unfold fire_open, bind, gets. by rewrite Hs, lookup_nil.
  - unfold fire_message, bind, gets. by rewrite Hs, lookup_nil.
  - unfold fire_close, bind, gets. by rewrite Hs, lookup_nil.
  - unfold fire_tick, bind, gets. by rewrite Hi, lookup_nil.
Qed.

Lemma inv_frames_only ms s s' :
  lifecycle s <> Fresh -> frames_only ms s s' -> inv s -> inv s'.
Proof.
  intros Hnf [] [].
  split; rewrite ?fo_lifecycle0, ?fo_ws_deps0, ?fo_tm_deps0, ?fo_intervals0,
    ?fo_batches0, ?fo_socketRef0, ?fo_renders0, ?fo_sockets0, ?fo_batchRef0,
    ?fo_arrays0, ?length_alter; done.
Qed.

Lemma step_render s url f bi :
  step JSON_parse s (Render url f bi) =
  match lifecycle s with
  | Unmounted => s
  | _ =>
      match useBatchedMessages url f bi s with
      | (Normal _, s') => set_lifecycle Mounted s'
      | (Throw _, s') => s'
      end
  end.
Proof.
  unfold step. simpl. rewrite bind_gets.
  destruct (lifecycle s); try done;
    unfold bind, modify; by destruct (useBatchedMessages url f bi s) as [[|] ?].
Qed.

Lemma step_unmount s :
  step JSON_parse s Unmount =
  match lifecycle s with
  | Mounted => snd (unmount s)
  | _ => s
  end.
Proof. unfold step. simpl. unfold bind, gets. by destruct (lifecycle s). Qed.

Lemma step_tick s i r :
  step JSON_parse s (Tick i r) = snd (fire_tick i r s).
Proof. done. Qed.

Lemma inv_step s e : inv s -> inv (step JSON_parse s e).
Proof.
  intros Hinv.
  destruct (decide (lifecycle s = Fresh)) as [Hf|Hnf].
  { destruct e as [url f bi| | | | |]; try (rewrite step_fresh; done).
    rewrite step_render, Hf.
    destruct (inv_fresh _ Hinv Hf) as (Hs & Hi & Hw & Ht & Hb & Ha & _).
    rewrite useBatchedMessages_fresh by done.
    split; simpl; try done.
    - intros _. exists url, (renders s), (length (sockets s)), (default 100%Z bi), f,
        (length (intervals s)).
      repeat split; try done; try lia.
      + rewrite length_app. simpl. lia.
      + by rewrite Hi.
    - intros _. rewrite length_app. simpl. lia.
    - intros i iv. rewrite Hi. simpl. intros H _.
      destruct i; [|done]. eauto. }
  pose proof (inv_batchRef _ Hinv Hnf) as Hbr.
  destruct e as [url f bi| |i|i data|i|i r].
  - rewrite step_render.
    destruct (lifecycle s) eqn:Hl; try done.
    destruct (inv_mounted _ Hinv Hl)
      as (u & n & k & d & f0 & t & Hw & Hn & Hk & Hkl & Ht & Hiv).
    erewrite useBatchedMessages_mounted by (try done; congruence).
    split; simpl; try done.
    + intros _. exists url, (renders s), (length (sockets s)).
      destruct (decide ((d, f0) = (default 100%Z bi, f))) as [Heq|Hne].
      * exists d, f0, t. repeat split; try done; try lia.
        rewrite length_app, length_alter. simpl. lia.
      * exists (default 100%Z bi), f, (length (intervals s)).
        repeat split; try done; try lia.
        { rewrite length_app, length_alter. simpl. lia. }
        { rewrite lookup_app_r; rewrite length_alter; [|done].
          by rewrite Nat.sub_diag. }
    + intros _. rewrite length_app. simpl. lia.
    + intros i iv.
      destruct (decide ((d, f0) = (default 100%Z bi, f))) as [Heq|Hne].
      * intros H1 H2. destruct (inv_live _ Hinv _ _ H1 H2) as [d' Hd'].
        rewrite Ht in Hd'. rewrite Hd'. eauto.
      * intros H1 H2.
        destruct (decide (i < length (intervals s))) as [Hlt|Hge].
        { rewrite lookup_app_l in H1 by (by rewrite length_alter).
          destruct (decide (i = t)) as [->|Hit].
          - rewrite list_lookup_alter_eq, Hiv in H1. simpl in H1.
            injection H1 as <-. done.
          - rewrite list_lookup_alter_ne in H1 by done.
            destruct (inv_live _ Hinv _ _ H1 H2) as [d' Hd'].
            rewrite Ht in Hd'. congruence. }
        { apply lookup_lt_Some in H1 as Hlen.
          rewrite length_app, length_alter in Hlen. simpl in Hlen.
          assert (i = length (intervals s)) as -> by lia. eauto. }
  - rewrite step_unmount.
    destruct (lifecycle s) eqn:Hl; try done.
    destruct (inv_mounted _ Hinv Hl)
      as (u & n & k & d & f0 & t & Hw & Hn & Hk & Hkl & Ht & Hiv).
    erewrite unmount_mounted by done.
    split; simpl; try done.
    intros i iv H1 H2. exfalso.
    destruct (decide (i = t)) as [->|Hit].
    + rewrite list_lookup_alter_eq, Hiv in H1. simpl in H1.
      injection H1 as <-. done.
    + rewrite list_lookup_alter_ne in H1 by done.
      destruct (inv_live _ Hinv _ _ H1 H2) as [d' Hd'].
      rewrite Ht in Hd'. congruence.
  - destruct (step_socket_event (SocketOpen i) s eq_refl) as [ms H].
    by eapply inv_frames_only.
  - destruct (step_socket_event (SocketMessage i data) s eq_refl) as [ms H].
    by eapply inv_frames_only.
  - destruct (step_socket_event (SocketClose i) s eq_refl) as [ms H].
    by eapply inv_frames_only.
  - rewrite step_tick.
    destruct (fire_tick_cases i r s) as [->|(iv & Hi & Hlive & Hb & ->)]; [done|].
    destruct Hinv.
    destruct (throws r); simpl;
      (split; simpl; try done; rewrite ?length_app, ?length_alter; simpl;
       intros; lia).
Qed.

Lemma inv_run s evs : inv s -> inv (run JSON_parse s evs).
Proof.
  revert s. induction evs as [|e evs IH]; intros s H; [done|].
  simpl. apply IH. by apply inv_step.
Qed.

Lemma inv_reachable evs : inv (run JSON_parse initial evs).
Proof. apply inv_run, inv_initial. Qed.

(** ** The Connection Adapter: [useWebSocket] *)

Lemma useWebSocket_first url onMessage s :
  ws_deps s = None ->
  useWebSocket url onMessage s =
  (Normal (socketRef s),
   set_ws_deps (Some (url, onMessage))
     (set_socketRef (Some (length (sockets s)))
        (set_sockets (fun l => l ++ [fresh_socket url onMessage]) s))).
Proof.
  intros H. unfold useWebSocket. rewrite bind_gets.
  mstep ws_destroy_none.
  erewrite bind_normal; [done|].
  apply ws_create_changed. by rewrite H.
Qed.

Lemma useWebSocket_same url onMessage s :
  ws_deps s = Some (url, onMessage) ->
  useWebSocket url onMessage s = (Normal (socketRef s), s).
Proof.
  intros H. unfold useWebSocket. rewrite bind_gets.
  mstep ws_destroy_same. by mstep ws_create_same.
Qed.

Lemma useWebSocket_changed url onMessage s d k :
  ws_deps s = Some d -> d <> (url, onMessage) -> socketRef s = Some k ->
  useWebSocket url onMessage s =
  (Normal (Some k),
   set_ws_deps (Some (url, onMessage))
     (set_socketRef (Some (length (sockets s)))
        (set_sockets
           (fun l => alter close_socket k l ++ [fresh_socket url onMessage]) s))).
Proof.
  intros H Hd Hk. unfold useWebSocket. rewrite bind_gets.
  erewrite bind_normal by (by eapply ws_destroy_changed).
  erewrite bind_normal; cycle 1.
  { apply ws_create_changed. simpl. rewrite H. simpl.
    by rewrite bool_decide_eq_true_2. }
  rewrite Hk. destruct s. unfold_setters. by rewrite length_alter.
Qed.

Lemma closing_close_socket w : closing (close_socket w).
Proof. unfold closing, close_socket. destruct (ws_readyState w) eqn:E; simpl; auto. Qed.

(** C10. The handle [useWebSocket] returns is [socketRef.current] as it is
    while rendering, before the effect of that render runs: on the first
    render (the ref still holds [null], no effect has run) the hook returns
    [null] although that very pass creates the connection, and in any pass
    the value returned is never the socket the pass creates. *)
Theorem useWebSocket_returns_handle_of_previous_pass url onMessage s :
  ws_wf s ->
  exists s',
    useWebSocket url onMessage s = (Normal (socketRef s), s') /\
    (ws_deps s = None -> socketRef s = None ->
       socketRef s' = Some (length (sockets s)) /\
       sockets s' !! length (sockets s) = Some (fresh_socket url onMessage)) /\
    (forall k, sockets s !! k = None -> socketRef s <> Some k).
Proof.
  intros [Hlt Hmounted].
  assert (forall k, sockets s !! k = None -> socketRef s <> Some k) as Hnew.
  { intros k Hk Hs. apply Hlt in Hs. apply lookup_ge_None in Hk. lia. }
  destruct (ws_deps s) as [d|] eqn:Hd.
  - destruct (Hmounted (ltac:(eauto))) as [k Hk].
    destruct (decide (d = (url, onMessage))) as [->|Hne].
    + exists s. rewrite useWebSocket_same by done. by repeat split.
    + eexists. erewrite useWebSocket_changed by done.
      rewrite Hk in *. by repeat split.
  - eexists. rewrite useWebSocket_first by done.
    repeat split; try done. simpl.
    rewrite lookup_app_r by done. by rewrite Nat.sub_diag.
Qed.

(** C8. Rendering [useWebSocket] again with another [onMessage] reference
    or another address calls [close()] on the socket in use and opens a new
    one, which becomes [socketRef.current]; rendering it again with the
    same reference and the same address changes nothing. *)
Theorem useWebSocket_reconnects_on_changed_key url0 onMessage0 url onMessage k w s :
  ws_deps s = Some (url0, onMessage0) ->
  socketRef s = Some k ->
  sockets s !! k = Some w ->
  exists s',
    useWebSocket url onMessage s = (Normal (Some k), s') /\
    if decide (url = url0 /\ onMessage = onMessage0) then s' = s
    else
      sockets s' = alter close_socket k (sockets s) ++ [fresh_socket url onMessage] /\
      sockets s' !! k = Some (close_socket w) /\ closing (close_socket w) /\
      socketRef s' = Some (length (sockets s)) /\
      sockets s' !! length (sockets s) = Some (fresh_socket url onMessage) /\
      k <> length (sockets s) /\
      ws_deps s' = Some (url, onMessage).
Proof.
  intros Hd Hk Hw.
  destruct (decide (url = url0 /\ onMessage = onMessage0)) as [[-> ->]|Hne].
  - exists s. rewrite useWebSocket_same by done. by rewrite Hk.
  - eexists. split.
    { eapply useWebSocket_changed; [done| |done].
      intros [= -> ->]. by apply Hne. }
    apply lookup_lt_Some in Hw as Hlt.
    repeat split; simpl; try done.
    + rewrite lookup_app_l by (by rewrite length_alter).
      by rewrite list_lookup_alter_eq, Hw.
    + apply closing_close_socket.
    + rewrite lookup_app_r; rewrite length_alter; [|done].
      by rewrite Nat.sub_diag.
    + lia.
Qed.

(** C4, as the code has it.  On an open socket whose handler is the one
    [useWebSocket] installs, a frame that [JSON.parse] rejects makes the
    handler throw [SyntaxError]: the handler catches nothing and logs
    nothing, and the store is left exactly as it was, so no message is
    produced, no batch sees the frame and the socket is still open; the
    next frame that decodes is handed to [onMessage] as if the bad frame had
    never arrived. *)
Theorem malformed_frame_throws_and_is_dropped s i w onMessage data :
  sockets s !! i = Some w ->
  ws_readyState w = OPEN ->
  ws_onmessage w = Some (DecodeAndForward onMessage) ->
  JSON_parse data = None ->
  dispatch JSON_parse (SocketMessage i data) s = (Throw SyntaxError, s) /\
  step JSON_parse s (SocketMessage i data) = s /\
  forall data' message,
    JSON_parse data' = Some message ->
    dispatch JSON_parse (SocketMessage i data')
      (step JSON_parse s (SocketMessage i data)) =
    call_onMessage onMessage message s.
Proof.
  intros Hw Hopen Hh Hbad.
  assert (dispatch JSON_parse (SocketMessage i data) s = (Throw SyntaxError, s)) as E.
  { simpl. unfold fire_message, bind, gets. rewrite Hw.
    rewrite decide_True by done. rewrite Hh. simpl. by rewrite Hbad. }
  split; [done|]. unfold step. rewrite E. simpl. split; [done|].
  intros data' message Hgood.
  unfold fire_message, bind, gets. rewrite Hw.
  rewrite decide_True by done. rewrite Hh. simpl. by rewrite Hgood.
Qed.

(** ** How one event changes what is observed

    An event whose [onBatchMessage] invocation, if any, returns either
    leaves the deliveries alone and appends to buffer and arrivals alike, or
    is a flush: the buffer's contents are delivered and a new array becomes
    the buffer. *)
Lemma step_observed s e :
  inv s -> returns e = true ->
  let s' := step JSON_parse s e in
  (exists since,
     batches s' = batches s /\ arrived s' = arrived s ++ since /\
     buffer s' = buffer s ++ since /\ batchRef s' = batchRef s /\
     length (arrays s) <= length (arrays s') /\
     forall a, a <> batchRef s -> a < length (arrays s) ->
       arrays s' !! a = arrays s !! a) \/
  (exists i f r,
     e = Tick i r /\ throws r = false /\ lifecycle s <> Fresh /\
     arrays s !! batchRef s = Some (buffer s) /\ buffer s <> [] /\
     batches s' = batches s ++ [mkDelivery f (batchRef s) (buffer s)] /\
     arrived s' = arrived s ++ during r /\
     buffer s' = [] /\ batchRef s' = length (arrays s) /\
     arrays s' = alter (fun a => a ++ during r) (batchRef s) (arrays s) ++ [[]]).
Proof.
  intros Hinv Hret s'. subst s'.
  assert (forall s0 : state, s0 = s ->
    exists since, batches s0 = batches s /\ arrived s0 = arrived s ++ since /\
     buffer s0 = buffer s ++ since /\ batchRef s0 = batchRef s /\
     length (arrays s) <= length (arrays s0) /\
     forall a, a <> batchRef s -> a < length (arrays s) ->
       arrays s0 !! a = arrays s !! a) as Hsame.
  { intros s0 ->. exists []. by rewrite !app_nil_r. }
  destruct (decide (lifecycle s = Fresh)) as [Hf|Hnf].
  { left. destruct e as [url f bi| | | | |]; try (rewrite step_fresh; by auto).
    rewrite step_render, Hf.
    destruct (inv_fresh _ Hinv Hf) as (Hs & Hi & Hw & Ht & Hb & Ha & Har & Hbr).
    rewrite useBatchedMessages_fresh by done.
    exists []. unfold buffer. simpl. rewrite !app_nil_r, Har, Hbr. simpl.
    repeat split; try done; try lia. }
  pose proof (inv_batchRef _ Hinv Hnf) as Hbr.
  assert (forall since s', frames_only since s s' ->
    exists since, batches s' = batches s /\ arrived s' = arrived s ++ since /\
     buffer s' = buffer s ++ since /\ batchRef s' = batchRef s /\
     length (arrays s) <= length (arrays s') /\
     forall a, a <> batchRef s -> a < length (arrays s) ->
       arrays s' !! a = arrays s !! a) as Hframes.
  { intros since s' Hfo. exists since.
    pose proof (frames_only_buffer _ _ _ Hfo Hbr). destruct Hfo.
    repeat split; try done.
    - rewrite fo_arrays0, length_alter. lia.
    - intros a Ha _. rewrite fo_arrays0. by rewrite list_lookup_alter_ne. }
  destruct e as [url f bi| |i|i data|i|i r].
  - left. rewrite step_render.
    destruct (lifecycle s) eqn:Hl; try done; [|by auto].
    destruct (inv_mounted _ Hinv Hl)
      as (u & n & k & d & f0 & t & Hw & Hn & Hk & Hkl & Ht & Hiv).
    erewrite useBatchedMessages_mounted by (try done; congruence).
    exists []. unfold buffer. simpl. rewrite !app_nil_r.
    rewrite lookup_app_l by done.
    repeat split; try done.
    + rewrite length_app. lia.
    + intros a _ Ha. by rewrite lookup_app_l.
  - left. rewrite step_unmount.
    destruct (lifecycle s) eqn:Hl; try done; [|by auto].
    destruct (inv_mounted _ Hinv Hl)
      as (u & n & k & d & f0 & t & Hw & Hn & Hk & Hkl & Ht & Hiv).
    erewrite unmount_mounted by done.
    exists []. unfold buffer. simpl. by rewrite !app_nil_r.
  - left. destruct (step_socket_event (SocketOpen i) s eq_refl) as [ms H]. eauto.
  - left. destruct (step_socket_event (SocketMessage i data) s eq_refl) as [ms H]. eauto.
  - left. destruct (step_socket_event (SocketClose i) s eq_refl) as [ms H]. eauto.
  - rewrite step_tick. simpl in Hret. apply negb_true_iff in Hret.
    destruct (fire_tick_cases i r s) as [->|(iv & Hi & Hlive & Hb & ->)];
      [left; by auto|].
    right. rewrite Hret. exists i, (iv_onBatch iv), r. simpl.
    assert (arrays s !! batchRef s = Some (buffer s)) as Hlk.
    { unfold buffer. by destruct (lookup_lt_is_Some_2 _ _ Hbr) as [a ->]. }
    repeat split; try done.
    unfold buffer. simpl.
    rewrite lookup_app_r; rewrite length_alter; [|done].
    by rewrite Nat.sub_diag.
Qed.

(** ** The Batching Coalescer: [useBatchedMessages] *)

Lemma tick_delivers s i iv r :
  intervals s !! i = Some iv -> iv_live iv = true -> buffer s <> [] ->
  batches (step JSON_parse s (Tick i r)) =
  batches s ++ [mkDelivery (iv_onBatch iv) (batchRef s) (buffer s)].
Proof.
  intros Hi Hl Hb. rewrite step_tick, (fire_tick_live _ _ _ _ Hi Hl).
  destruct (throws r) eqn:Hr.
  - by rewrite interval_callback_throws.
  - by rewrite interval_callback_returns.
Qed.

Lemma buffer_nonempty_lookup s :
  buffer s <> [] -> arrays s !! batchRef s = Some (buffer s).
Proof. unfold buffer. by destruct (arrays s !! batchRef s). Qed.

Lemma step_batches s e :
  inv s ->
  batches (step JSON_parse s e) = batches s \/
  exists f, buffer s <> [] /\
    batches (step JSON_parse s e) =
    batches s ++ [mkDelivery f (batchRef s) (buffer s)].
Proof.
  intros Hinv. destruct (returns e) eqn:Hret.
  - destruct (step_observed s e Hinv Hret)
      as [(since & Hb & _)|(i & f & r & _ & _ & _ & _ & Hne & Hb & _)]; eauto.
  - destruct e as [| | | | |i r]; try done.
    rewrite step_tick.
    destruct (fire_tick_cases i r s) as [->|(iv & Hi & Hlive & Hb & ->)];
      [by left|].
    right. exists (iv_onBatch iv). split; [done|]. by destruct (throws r).
Qed.

(** C5. [onBatchMessage] is never called with an empty array, whatever the
    events were; and a tick that finds the buffer empty calls nothing and
    changes nothing, the timers included. *)
Theorem onBatchMessage_never_called_with_empty_batch evs i r :
  let s := run JSON_parse initial evs in
  Forall (fun d => d_items d <> []) (batches s) /\
  (buffer s = [] -> dispatch JSON_parse (Tick i r) s = (Normal tt, s)).
Proof.
  simpl. split.
  - induction evs as [|e evs IH] using rev_ind; [by constructor|].
    rewrite run_snoc.
    destruct (step_batches (run JSON_parse initial evs) e (inv_reachable evs))
      as [->|(f & Hne & ->)]; [done|].
    apply Forall_app. split; [done|]. by repeat constructor.
  - intros Hb. simpl. unfold fire_tick. rewrite bind_gets.
    destruct (intervals _ !! i) as [iv|]; [|done].
    destruct (iv_live iv); [|done]. by apply interval_callback_empty.
Qed.

(** C3. When [onBatchMessage] throws at a tick, the exception leaves the
    timer callback and the timers are as they were.  Whatever frames arrive
    afterwards, the next tick of the same timer calls [onBatchMessage]
    again, with an array that ends with the messages that arrived since the
    failed tick. *)
Theorem timer_survives_throwing_onBatchMessage s i iv r evs r' :
  intervals s !! i = Some iv -> iv_live iv = true ->
  buffer s <> [] -> throws r = true ->
  forallb is_socket_event evs = true ->
  let s1 := step JSON_parse s (Tick i r) in
  let s2 := run JSON_parse s1 evs in
  dispatch JSON_parse (Tick i r) s = (Throw ConsumerError, s1) /\
  intervals s1 = intervals s /\ intervals s2 !! i = Some iv /\
  exists since,
    arrived s2 = arrived s1 ++ since /\
    buffer s2 = buffer s1 ++ since /\
    batches (step JSON_parse s2 (Tick i r')) =
    batches s1 ++ [mkDelivery (iv_onBatch iv) (batchRef s) (buffer s1 ++ since)].
Proof.
  intros Hi Hl Hb Hr Hevs s1 s2.
  assert (dispatch JSON_parse (Tick i r) s =
          (Throw ConsumerError, delivered_to (iv_onBatch iv) r s)) as E.
  { simpl. rewrite (fire_tick_live _ _ _ _ Hi Hl).
    by apply interval_callback_throws. }
  assert (s1 = delivered_to (iv_onBatch iv) r s) as Hs1.
  { unfold s1, step. by rewrite E. }
  split; [by rewrite Hs1|]. split; [by rewrite Hs1|].
  destruct (run_socket_events evs s1 Hevs) as [since Hfo]. fold s2 in Hfo.
  assert (batchRef s1 < length (arrays s1)) as Hlt.
  { rewrite Hs1. simpl. rewrite length_alter.
    apply buffer_nonempty_lookup in Hb. by apply lookup_lt_Some in Hb. }
  pose proof (frames_only_buffer _ _ _ Hfo Hlt) as Hbuf.
  assert (intervals s2 !! i = Some iv) as Hi2.
  { rewrite (fo_intervals _ _ _ Hfo). by rewrite Hs1. }
  split; [done|]. exists since.
  split; [apply (fo_arrived _ _ _ Hfo)|]. split; [done|].
  rewrite (tick_delivers s2 i iv r' Hi2 Hl).
  - rewrite (fo_batches _ _ _ Hfo), (fo_batchRef _ _ _ Hfo), Hbuf.
    by rewrite Hs1.
  - rewrite Hbuf. rewrite Hs1. unfold delivered_to.
    rewrite buffer_push_all.
    + unfold buffer at 1. simpl. fold (buffer s).
      destruct (buffer s); [done|]. done.
    + simpl. apply buffer_nonempty_lookup in Hb. by apply lookup_lt_Some in Hb.
Qed.

(** C1, as the code has it.  When [onBatchMessage] returns normally and
    nothing is appended while it runs, the flush hands over the buffer's
    contents and then installs a new, empty array in the same run of the
    timer callback; the delivered array keeps its contents, and a message
    appended afterwards lands in the new array only. *)
Theorem flush_swaps_after_delivery s i iv r :
  intervals s !! i = Some iv -> iv_live iv = true ->
  buffer s <> [] -> during r = [] -> throws r = false ->
  let s' := step JSON_parse s (Tick i r) in
  dispatch JSON_parse (Tick i r) s = (Normal tt, s') /\
  batches s' = batches s ++ [mkDelivery (iv_onBatch iv) (batchRef s) (buffer s)] /\
  arrays s !! batchRef s' = None /\
  arrays s' !! batchRef s' = Some [] /\ buffer s' = [] /\
  arrays s' !! batchRef s = Some (buffer s) /\
  arrived s' = arrived s /\
  forall message,
    let s'' := snd (push message s') in
    buffer s'' = [message] /\ arrays s'' !! batchRef s = Some (buffer s) /\
    arrived s'' = arrived s ++ [message].
Proof.
  intros Hi Hl Hb Hd Hr s'.
  assert (dispatch JSON_parse (Tick i r) s =
          (Normal tt, swapped (iv_onBatch iv) r s)) as E.
  { simpl. rewrite (fire_tick_live _ _ _ _ Hi Hl).
    by apply interval_callback_returns. }
  assert (s' = swapped (iv_onBatch iv) r s) as ->.
  { unfold s', step. by rewrite E. }
  apply buffer_nonempty_lookup in Hb as Hlk.
  apply lookup_lt_Some in Hlk as Hlt.
  split; [done|]. unfold swapped, delivered_to, buffer. rewrite Hd. simpl.
  rewrite alter_app_nil, !app_nil_r.
  rewrite lookup_app_r by done. rewrite Nat.sub_diag. simpl.
  rewrite lookup_app_l by done.
  repeat split; try done.
  - by apply lookup_ge_None.
  - rewrite alter_snoc. rewrite lookup_app_r by done.
    by rewrite Nat.sub_diag.
  - rewrite alter_snoc. by rewrite lookup_app_l.
Qed.

Lemma delivered_snoc s' s d :
  batches s' = batches s ++ [d] -> delivered s' = delivered s ++ d_items d.
Proof.
  intros H. unfold delivered. rewrite H, fmap_app, concat_app. simpl.
  by rewrite app_nil_r.
Qed.

Lemma tidy_initial : tidy (@initial Message).
Proof. split; simpl; try done; constructor. Qed.

Lemma tidy_step s e :
  inv s -> quiet e = true -> tidy s -> tidy (step JSON_parse s e).
Proof.
  intros Hinv Hq [Hp Hn Hf].
  assert (returns e = true) as Hret.
  { destruct e; try done. simpl in *. by apply andb_true_iff in Hq as [? _]. }
  destruct (step_observed s e Hinv Hret)
    as [(since & Hb & Ha & Hbuf & Hbr & Hlen & Hsame)
       |(i & f & r & -> & Hr & Hnf & Hlk & Hne & Hb & Ha & Hbuf & Hbr & Har)].
  - split.
    + unfold delivered. rewrite Hb, Hbuf, Ha. fold (delivered s).
      by rewrite app_assoc, Hp.
    + by rewrite Hb.
    + rewrite Hb, Hbr. eapply Forall_impl; [exact Hf|].
      intros d [Hlt Hd]. split; [done|]. rewrite Hsame; [done|lia|].
      by apply lookup_lt_Some in Hd.
  - assert (during r = []) as Hd.
    { simpl in Hq. apply andb_true_iff in Hq as [_ Hq]. by destruct (during r). }
    rewrite Hd in *. rewrite alter_app_nil in Har. rewrite app_nil_r in Ha.
    apply lookup_lt_Some in Hlk as Hlt.
    split.
    + rewrite (delivered_snoc _ _ _ Hb), Hbuf, Ha. simpl.
      by rewrite app_nil_r.
    + rewrite Hb, fmap_app. simpl. apply NoDup_app. split; [done|].
      split; [|apply NoDup_singleton].
      intros a Ha1 Ha2. apply list_elem_of_singleton in Ha2 as ->.
      apply list_elem_of_fmap in Ha1 as (d & Hda & Hd1).
      rewrite Forall_forall in Hf. destruct (Hf d Hd1) as [Hlt' _]. lia.
    + rewrite Hb, Hbr, Har. apply Forall_app. split.
      * eapply Forall_impl; [exact Hf|].
        intros d [Hlt' Hd']. split; [lia|].
        rewrite lookup_app_l; [done|]. by apply lookup_lt_Some in Hd'.
      * repeat constructor; simpl; [done|]. by rewrite lookup_app_l.
Qed.

Lemma tidy_run evs :
  forallb quiet evs = true -> tidy (run JSON_parse initial evs).
Proof.
  induction evs as [|e evs IH] using rev_ind; intros H; [apply tidy_initial|].
  rewrite forallb_app in H. apply andb_true_iff in H as [H1 H2].
  simpl in H2. rewrite andb_true_r in H2.
  rewrite run_snoc. apply tidy_step; [apply inv_reachable|done|by apply IH].
Qed.

(** C2, as the code has it.  As long as every [onBatchMessage] call returns
    normally and appends nothing while it runs, the batches delivered so
    far, followed by what is still buffered, are exactly the messages that
    arrived, in order; no array is delivered twice; and every delivered
    array is another object than the buffer and still holds what was
    delivered. *)
Theorem batches_partition_arrivals evs :
  forallb quiet evs = true ->
  let s := run JSON_parse initial evs in
  exactly_once s /\
  Forall (fun d => d_array d <> batchRef s /\
                   arrays s !! d_array d = Some (d_items d)) (batches s).
Proof.
  intros H s. destruct (tidy_run evs H) as [Hp Hn Hf]. fold s in Hp, Hn, Hf.
  split; [by split|].
  eapply Forall_impl; [exact Hf|]. intros d [Hlt Hd]. split; [lia|done].
Qed.
Lemma StronglySorted_sublist {A} (R : relation A) (l1 l2 : list A) :
  l1 `sublist_of` l2 -> StronglySorted R l2 -> StronglySorted R l1.
Proof.
  induction 1 as [|x l1 l2 Hsub IH|x l1 l2 Hsub IH]; intros Hs.
  - constructor.
  - apply StronglySorted_inv in Hs as [Hs Hx]. constructor; [by apply IH|].
    rewrite Forall_forall in *. intros y Hy. apply Hx.
    by apply (sublist_subseteq _ _ Hsub).
  - apply StronglySorted_inv in Hs as [Hs _]. by apply IH.
Qed.

Lemma buffer_swapped f r s : buffer (swapped f r s) = [].
Proof.
  unfold buffer, swapped, delivered_to. simpl.
  rewrite lookup_app_r; rewrite length_alter; [|done].
  by rewrite Nat.sub_diag.
Qed.

(** As long as every [onBatchMessage] call returns, what was delivered and
    what is buffered is, in this order, a subsequence of the arrivals. *)
Lemma ordered_run evs :
  forallb returns evs = true ->
  let s := run JSON_parse initial evs in
  (delivered s ++ buffer s) `sublist_of` arrived s.
Proof.
  induction evs as [|e evs IH] using rev_ind; intros H; [done|].
  rewrite forallb_app in H. apply andb_true_iff in H as [H1 H2].
  simpl in H2. rewrite andb_true_r in H2. specialize (IH H1). simpl in IH.
  simpl. rewrite run_snoc.
  destruct (step_observed _ e (inv_reachable evs) H2)
    as [(since & Hb & Ha & Hbuf & _)
       |(i & f & r & -> & Hr & Hnf & Hlk & Hne & Hb & Ha & Hbuf & _)].
  - unfold delivered. rewrite Hb, Hbuf, Ha, app_assoc.
    by apply sublist_app.
  - rewrite (delivered_snoc _ _ _ Hb), Hbuf, Ha. simpl. rewrite app_nil_r.
    by apply sublist_inserts_r.
Qed.

(** C6. Starting from an empty buffer, whatever frames arrive before the
    next tick, a flush whose consumer does not throw delivers exactly the
    messages that arrived, in arrival order, as one batch (none when none
    arrived), and leaves an empty buffer.  And as long as no consumer call
    throws, every message of a batch arrived no later than every message of
    the next batch, for any arrival time under which the arrivals are in
    order. *)
Theorem flush_delivers_the_interval_in_order :
  (forall s i iv evs r,
     intervals s !! i = Some iv -> iv_live iv = true ->
     arrays s !! batchRef s = Some [] ->
     forallb is_socket_event evs = true -> throws r = false ->
     let s1 := run JSON_parse s evs in
     let s2 := step JSON_parse s1 (Tick i r) in
     exists msgs,
       arrived s1 = arrived s ++ msgs /\
       batches s2 =
         batches s ++
         match msgs with
         | [] => []
         | _ => [mkDelivery (iv_onBatch iv) (batchRef s) msgs]
         end /\
       buffer s2 = []) /\
  (forall evs (time : Message -> nat) l1 b1 b2 l2 x y,
     forallb returns evs = true ->
     let s := run JSON_parse initial evs in
     StronglySorted (fun x y => time x <= time y) (arrived s) ->
     batches s = l1 ++ b1 :: b2 :: l2 ->
     x ∈ d_items b1 -> y ∈ d_items b2 -> time x <= time y).
Proof.
  split.
  - intros s i iv evs r Hi Hl Hlk Hevs Hr s1 s2.
    destruct (run_socket_events evs s Hevs) as [msgs Hfo]. fold s1 in Hfo.
    exists msgs. split; [apply (fo_arrived _ _ _ Hfo)|].
    apply lookup_lt_Some in Hlk as Hlt.
    pose proof (frames_only_buffer _ _ _ Hfo Hlt) as Hbuf.
    assert (buffer s = []) as Hb0 by (unfold buffer; by rewrite Hlk).
    rewrite Hb0 in Hbuf. simpl in Hbuf.
    assert (intervals s1 !! i = Some iv) as Hi1
      by (by rewrite (fo_intervals _ _ _ Hfo)).
    unfold s2. rewrite step_tick, (fire_tick_live _ _ _ _ Hi1 Hl).
    destruct msgs as [|m msgs].
    + rewrite interval_callback_empty by done. simpl.
      by rewrite app_nil_r, (fo_batches _ _ _ Hfo).
    + rewrite interval_callback_returns by (by rewrite ?Hbuf).
      split; [|apply buffer_swapped]. simpl.
      by rewrite (fo_batches _ _ _ Hfo), (fo_batchRef _ _ _ Hfo), Hbuf.
  - intros evs time l1 b1 b2 l2 x y Hret s Hsorted Hb Hx Hy.
    pose proof (ordered_run evs Hret) as Hsub. simpl in Hsub. fold s in Hsub.
    apply (StronglySorted_sublist _ _ _ Hsub) in Hsorted.
    apply StronglySorted_app_1_l in Hsorted.
    unfold delivered in Hsorted. rewrite Hb in Hsorted.
    rewrite fmap_app, concat_app in Hsorted. simpl in Hsorted.
    apply StronglySorted_app_1_r in Hsorted.
    rewrite app_assoc in Hsorted. apply StronglySorted_app_1_l in Hsorted.
    exact (StronglySorted_app_1_elem_of _ _ _ x y Hsorted Hx Hy).
Qed.

Lemma filter_none {A} (P : A -> Prop) `{forall x, Decision (P x)} (l : list A) :
  (forall i x, l !! i = Some x -> ~ P x) -> filter P l = [].
Proof.
  induction l as [|x l IH]; intros Hl; [done|].
  rewrite filter_cons_False by (by apply (Hl 0)).
  apply IH. intros i y Hy. by apply (Hl (S i)).
Qed.

Lemma filter_at_most_one {A} (P : A -> Prop) `{forall x, Decision (P x)} (l : list A) :
  (forall i j x y, l !! i = Some x -> l !! j = Some y -> P x -> P y -> i = j) ->
  length (filter P l) <= 1.
Proof.
  induction l as [|x l IH]; intros Hl; [simpl; lia|].
  destruct (decide (P x)) as [Hx|Hx].
  - rewrite filter_cons_True by done.
    rewrite filter_none; [simpl; lia|].
    intros j y Hy HP. by specialize (Hl 0 (S j) x y eq_refl Hy Hx HP).
  - rewrite filter_cons_False by done. apply IH.
    intros i j y z Hy Hz Py Pz.
    specialize (Hl (S i) (S j) y z Hy Hz Py Pz). lia.
Qed.

Lemma live_timers_at_most_one s : inv s -> length (live_timers s) <= 1.
Proof.
  intros Hinv. apply filter_at_most_one.
  intros i j x y Hx Hy Px Py.
  destruct (inv_live _ Hinv _ _ Hx Px) as [d Hd].
  destruct (inv_live _ Hinv _ _ Hy Py) as [d' Hd']. congruence.
Qed.

Lemma live_timers_none s : inv s -> tm_deps s = None -> live_timers s = [].
Proof.
  intros Hinv Ht. apply filter_none. intros i iv Hi Hl.
  destruct (inv_live _ Hinv _ _ Hi Hl) as [d Hd]. congruence.
Qed.

(** C7. At most one timer is live at any time.  The hook has no stop
    operation of its own: its active life ends when the component is
    unmounted and when a render changes [batchInterval] or
    [onBatchMessage].  On each of these paths the timer that was live is
    cancelled and [close()] is called on the socket in use; unmounting
    leaves no live timer. *)
Theorem every_exit_cancels_timer_and_closes_socket evs :
  let s := run JSON_parse initial evs in
  length (live_timers s) <= 1 /\
  forall k d f t,
    socketRef s = Some k -> tm_deps s = Some (d, f, t) ->
    lifecycle s = Mounted /\
    intervals s !! t = Some (mkInterval d f true) /\
    (let s' := step JSON_parse s Unmount in
     intervals s' !! t = Some (mkInterval d f false) /\
     (exists w, sockets s' !! k = Some w /\ closing w) /\
     live_timers s' = []) /\
    (forall url f' bi,
       default 100%Z bi <> d \/ f' <> f ->
       let s' := step JSON_parse s (Render url f' bi) in
       intervals s' !! t = Some (mkInterval d f false) /\
       (exists w, sockets s' !! k = Some w /\ closing w) /\
       length (live_timers s') <= 1).
Proof.
  intros s. pose proof (inv_reachable evs) as Hinv. fold s in Hinv.
  split; [by apply live_timers_at_most_one|].
  intros k d f t Hk Ht.
  assert (lifecycle s = Mounted) as Hl.
  { destruct (lifecycle s) eqn:Hl; [|done|].
    - destruct (inv_fresh _ Hinv Hl) as (_ & _ & _ & ? & _). congruence.
    - destruct (inv_unmounted _ Hinv Hl) as (_ & ?). congruence. }
  destruct (inv_mounted _ Hinv Hl)
    as (u & n & k' & d' & f0 & t' & Hw & Hn & Hk' & Hkl & Ht' & Hiv).
  rewrite Hk in Hk'. injection Hk' as <-.
  rewrite Ht in Ht'. injection Ht' as <- <- <-.
  destruct (lookup_lt_is_Some_2 _ _ Hkl) as [w Hsk].
  split; [done|]. split; [done|]. split.
  - simpl.
    pose proof (inv_step s Unmount Hinv) as Hinv'.
    assert (tm_deps (step JSON_parse s Unmount) = None) as Hnone.
    { rewrite step_unmount, Hl. by erewrite unmount_mounted. }
    split; [|split; [|by apply live_timers_none]].
    + rewrite step_unmount, Hl. erewrite unmount_mounted by done. simpl.
      by rewrite list_lookup_alter_eq, Hiv.
    + rewrite step_unmount, Hl. erewrite unmount_mounted by done. simpl.
      exists (close_socket w). rewrite list_lookup_alter_eq, Hsk.
      split; [done|apply closing_close_socket].
  - intros url f' bi Hch s'.
    pose proof (inv_step s (Render url f' bi) Hinv) as Hinv'. fold s' in Hinv'.
    split; [|split; [|by apply live_timers_at_most_one]].
    + unfold s'. rewrite step_render, Hl.
      erewrite useBatchedMessages_mounted by (try done; congruence). simpl.
      rewrite decide_False by (intros [= -> ->]; by destruct Hch).
      apply lookup_lt_Some in Hiv as Hlt.
      rewrite lookup_app_l by (by rewrite length_alter).
      by rewrite list_lookup_alter_eq, Hiv.
    + unfold s'. rewrite step_render, Hl.
      erewrite useBatchedMessages_mounted by (try done; congruence). simpl.
      exists (close_socket w).
      rewrite lookup_app_l by (by rewrite length_alter).
      rewrite list_lookup_alter_eq, Hsk.
      split; [done|apply closing_close_socket].
Qed.

Lemma fire_open_fresh_socket s k url onMessage :
  sockets s !! k = Some (fresh_socket url onMessage) ->
  step JSON_parse s (SocketOpen k) =
  set_console (fun c => c ++ ["Websocket connected!"%string])
    (set_sockets (alter (set_readyState OPEN) k) s).
Proof.
  intros H. unfold step. simpl. unfold fire_open. by rewrite bind_gets, H.
Qed.

Lemma fire_message_push s k w n data message :
  sockets s !! k = Some w -> ws_readyState w = OPEN ->
  ws_onmessage w = Some (DecodeAndForward (PushClosure n)) ->
  JSON_parse data = Some message ->
  step JSON_parse s (SocketMessage k data) = push_all [message] s.
Proof.
  intros H Ho Hh Hp. unfold step. simpl. unfold fire_message.
  rewrite bind_gets, H. rewrite decide_True by done.
  rewrite Hh. simpl. by rewrite Hp.
Qed.

(** C9. A render of the mounted component, whatever it changes, touches
    neither the buffer nor the deliveries nor the arrivals.  After it the
    live timer is the one of the new configuration, and its next tick hands
    what was buffered before the render to the new [onBatchMessage]; a
    message that arrives on the new socket before that tick is appended to
    the same buffer and delivered in the same batch. *)
Theorem reconfiguration_keeps_the_buffer evs url f bi :
  let s := run JSON_parse initial evs in
  lifecycle s = Mounted ->
  let s' := step JSON_parse s (Render url f bi) in
  buffer s' = buffer s /\ batchRef s' = batchRef s /\
  batches s' = batches s /\ arrived s' = arrived s /\
  exists t,
    tm_deps s' = Some (default 100%Z bi, f, t) /\
    intervals s' !! t = Some (mkInterval (default 100%Z bi) f true) /\
    (forall r, buffer s <> [] ->
       batches (step JSON_parse s' (Tick t r)) =
       batches s ++ [mkDelivery f (batchRef s) (buffer s)]) /\
    (forall data message r,
       JSON_parse data = Some message ->
       let k := length (sockets s) in
       let s'' := run JSON_parse s' [SocketOpen k; SocketMessage k data] in
       socketRef s' = Some k /\ socketRef s <> Some k /\
       sockets s' !! k = Some (fresh_socket url (PushClosure (renders s))) /\
       buffer s'' = buffer s ++ [message] /\
       batches (step JSON_parse s'' (Tick t r)) =
       batches s ++ [mkDelivery f (batchRef s) (buffer s ++ [message])]).
Proof.
  intros s Hl s'. pose proof (inv_reachable evs) as Hinv. fold s in Hinv.
  pose proof (inv_step s (Render url f bi) Hinv) as Hinv'. fold s' in Hinv'.
  assert (lifecycle s <> Fresh) as Hnf by congruence.
  pose proof (inv_batchRef _ Hinv Hnf) as Hbr.
  destruct (inv_mounted _ Hinv Hl)
    as (u & n & k & d & f0 & t & Hw & Hn & Hk & Hkl & Ht & Hiv).
  assert (s' = mkState
     (alter close_socket k (sockets s) ++ [fresh_socket url (PushClosure (renders s))])
     (if decide ((d, f0) = (default 100%Z bi, f)) then intervals s
      else alter clear t (intervals s) ++ [mkInterval (default 100%Z bi) f true])
     (arrays s ++ [[]]) (console s) Mounted (S (renders s))
     (Some (length (sockets s))) (Some (url, PushClosure (renders s)))
     (batchRef s)
     (if decide ((d, f0) = (default 100%Z bi, f)) then Some (d, f0, t)
      else Some (default 100%Z bi, f, length (intervals s)))
     (calls s) (batches s) (arrived s)) as Hs'.
  { unfold s'. rewrite step_render, Hl.
    by erewrite useBatchedMessages_mounted by done. }
  assert (buffer s' = buffer s) as Hbuf.
  { rewrite Hs'. unfold buffer. simpl. by rewrite lookup_app_l. }
  assert (batchRef s' = batchRef s) as Hbr' by (by rewrite Hs').
  assert (batches s' = batches s) as Hbt by (by rewrite Hs').
  assert (lifecycle s' = Mounted) as Hl' by (by rewrite Hs').
  split; [done|]. split; [done|]. split; [done|].
  split; [by rewrite Hs'|].
  destruct (inv_mounted _ Hinv' Hl')
    as (u' & n' & k' & d' & f' & t' & Hw' & Hn' & Hk' & Hkl' & Ht' & Hiv').
  assert ((d', f') = (default 100%Z bi, f)) as Hcfg.
  { rewrite Hs' in Ht'. simpl in Ht'.
    destruct (decide ((d, f0) = (default 100%Z bi, f))); congruence. }
  injection Hcfg as -> ->.
  exists t'. split; [done|]. split; [done|]. split.
  - intros r Hne.
    rewrite (tick_delivers s' t' (mkInterval (default 100%Z bi) f true) r Hiv' eq_refl)
      by (by rewrite Hbuf).
    simpl. by rewrite Hbt, Hbr', Hbuf.
  - intros data message r Hp k0 s''.
    assert (sockets s' !! k0 = Some (fresh_socket url (PushClosure (renders s)))) as Hsk.
    { rewrite Hs'. simpl. unfold k0.
      rewrite lookup_app_r; rewrite length_alter; [|done].
      by rewrite Nat.sub_diag. }
    split; [by rewrite Hs'|]. split; [rewrite Hk; unfold k0; intros [=]; lia|].
    split; [done|].
    assert (s'' = push_all [message]
              (set_console (fun c => c ++ ["Websocket connected!"%string])
                 (set_sockets (alter (set_readyState OPEN) k0) s'))) as Hs''.
    { unfold s''. simpl. erewrite fire_open_fresh_socket by done.
      eapply fire_message_push; [| | |done].
      - simpl. rewrite list_lookup_alter_eq, Hsk. done.
      - done.
      - done. }
    assert (buffer s'' = buffer s ++ [message]) as Hbuf''.
    { rewrite Hs''. rewrite buffer_push_all.
      - unfold buffer at 1. simpl. fold (buffer s'). by rewrite Hbuf.
      - simpl. rewrite Hbr', Hs'. simpl. rewrite length_app. lia. }
    split; [done|].
    rewrite (tick_delivers s'' t' (mkInterval (default 100%Z bi) f true) r).
    + rewrite Hbuf''. rewrite Hs''. simpl. by rewrite Hbt, Hbr'.
    + by rewrite Hs''.
    + done.
    + rewrite Hbuf''. by destruct (buffer s).
Qed.

(** * Further properties of the two hooks *)

(** ** Socket events on the sockets the hooks create *)

Lemma dispatch_open_wired s i :
  wired s -> dispatch JSON_parse (SocketOpen i) s = (Normal tt, after_open i s).
Proof.
  intros Hw. simpl. unfold fire_open, after_open. rewrite bind_gets.
  destruct (sockets s !! i) as [w|] eqn:Hi; [|done].
  destruct (wired_handlers _ Hw _ _ Hi) as (Ho & _ & _).
  case_decide; [|done]. rewrite Ho. unfold with_socket. by rewrite bind_modify.
Qed.

Lemma dispatch_close_wired s i :
  wired s -> dispatch JSON_parse (SocketClose i) s = (Normal tt, after_close i s).
Proof.
  intros Hw. simpl. unfold fire_close, after_close. rewrite bind_gets.
  destruct (sockets s !! i) as [w|] eqn:Hi; [|done].
  destruct (wired_handlers _ Hw _ _ Hi) as (_ & _ & Hc).
  case_decide; [done|]. rewrite Hc. unfold with_socket. by rewrite bind_modify.
Qed.

Lemma dispatch_message_wired s i data :
  wired s ->
  dispatch JSON_parse (SocketMessage i data) s =
  match sockets s !! i with
  | Some w =>
      if decide (ws_readyState w = OPEN) then
        match JSON_parse data with
        | Some message => (Normal tt, push_all [message] s)
        | None => (Throw SyntaxError, s)
        end
      else (Normal tt, s)
  | None => (Normal tt, s)
  end.
Proof.
  intros Hw. simpl. unfold fire_message. rewrite bind_gets.
  destruct (sockets s !! i) as [w|] eqn:Hi; [|done].
  destruct (wired_handlers _ Hw _ _ Hi) as (_ & [n Hm] & _).
  case_decide; [|done]. rewrite Hm. simpl. by destruct (JSON_parse data).
Qed.



Lemma wired_initial : wired (@initial Message).
Proof. split; simpl; try done; intros i w H; by rewrite lookup_nil in H. Qed.

Lemma fresh_socket_wired url n :
  ws_onopen (fresh_socket url (PushClosure n)) = Some LogConnected /\
  (exists m, ws_onmessage (fresh_socket url (PushClosure n)) =
             Some (DecodeAndForward (PushClosure m))) /\
  ws_onclose (fresh_socket url (PushClosure n)) = Some LogDisconnected.
Proof. repeat split; eauto. Qed.

Lemma not_connected_close_socket w : ~ connected (close_socket w).
Proof.
  unfold connected, close_socket.
  destruct (ws_readyState w) eqn:E; simpl; rewrite ?E; intros [?|?]; congruence.
Qed.

(** Closing the current socket and, possibly, opening a new one keeps the
    sockets wired. *)
Lemma wired_sockets_replaced s k (new : list WebSocket) (p : phase) (r : option nat) (n : nat) :
  wired s -> socketRef s = Some k ->
  (new = [] /\ n = renders s \/
   exists url, new = [fresh_socket url (PushClosure (renders s))] /\
     p = Mounted /\ r = Some (length (sockets s)) /\ n = S (renders s)) ->
  forall s',
    sockets s' = alter close_socket k (sockets s) ++ new ->
    lifecycle s' = p -> socketRef s' = r -> renders s' = n ->
    wired s'.
Proof.
  intros Hw Hk Hnew s' Hs Hl Hr Hn.
  assert (forall i w, alter close_socket k (sockets s) !! i = Some w ->
            (ws_onopen w = Some LogConnected /\
             (exists n, ws_onmessage w = Some (DecodeAndForward (PushClosure n))) /\
             ws_onclose w = Some LogDisconnected) /\ ~ connected w) as Hold.
  { intros i w Hi.
    destruct (decide (i = k)) as [->|Hik].
    - rewrite list_lookup_alter_eq in Hi.
      destruct (sockets s !! k) as [w0|] eqn:Hk0; [|done]. simpl in Hi.
      injection Hi as <-. split; [|apply not_connected_close_socket].
      destruct (wired_handlers _ Hw _ _ Hk0) as (? & ? & ?).
      unfold close_socket. by destruct (ws_readyState w0).
    - rewrite list_lookup_alter_ne in Hi by done.
      split; [by apply (wired_handlers _ Hw _ _ Hi)|].
      intros Hc. destruct (wired_current _ Hw _ _ Hi Hc) as [_ ?]. congruence. }
  destruct Hnew as [[-> ->]|(url & -> & -> & -> & ->)].
  - rewrite app_nil_r in Hs. split.
    + intros i w Hi. rewrite Hs in Hi. by apply Hold in Hi as [? _].
    + intros i w Hi Hc. rewrite Hs in Hi. by apply Hold in Hi as [_ ?].
    + by rewrite Hs, length_alter, Hn, (wired_count _ Hw).
  - split.
    + intros i w Hi. rewrite Hs in Hi.
      apply lookup_app_Some in Hi as [Hi|[_ Hi]]; [by apply Hold in Hi as [? _]|].
      apply list_lookup_singleton_Some in Hi as [_ <-]. apply fresh_socket_wired.
    + intros i w Hi Hc. rewrite Hs in Hi.
      apply lookup_app_Some in Hi as [Hi|[Hge Hi]]; [by apply Hold in Hi as [_ ?]|].
      apply list_lookup_singleton_Some in Hi as [Hi0 _].
      rewrite length_alter in Hge, Hi0. split; [done|]. rewrite Hr. f_equal. lia.
    + rewrite Hs, length_app, length_alter, Hn, (wired_count _ Hw). simpl. lia.
Qed.

Lemma wired_step s e : inv s -> wired s -> wired (step JSON_parse s e).
Proof.
  intros Hinv Hw.
  destruct e as [url f bi| |i|i data|i|i r].
  - rewrite step_render. destruct (lifecycle s) eqn:Hl; [| |done].
    + destruct (inv_fresh _ Hinv Hl) as (Hs & _ & Hwd & Ht & _).
      rewrite useBatchedMessages_fresh by done.
      pose proof (wired_count _ Hw) as Hc. rewrite Hs in Hc. simpl in Hc.
      split; simpl; rewrite Hs; simpl.
      * intros [|i] w Hi; [|done]. injection Hi as <-. apply fresh_socket_wired.
      * intros [|i] w Hi _; [done|done].
      * lia.
    + destruct (inv_mounted _ Hinv Hl)
        as (u & n & k & d & f0 & t & Hwd & Hn & Hk & Hkl & Ht & Hiv).
      erewrite useBatchedMessages_mounted by (try done; congruence).
      eapply (wired_sockets_replaced s k); [done|done| |done..].
      right. by exists url.
  - rewrite step_unmount. destruct (lifecycle s) eqn:Hl; [done| |done].
    destruct (inv_mounted _ Hinv Hl)
      as (u & n & k & d & f0 & t & Hwd & Hn & Hk & Hkl & Ht & Hiv).
    erewrite unmount_mounted by done.
    eapply (wired_sockets_replaced s k [] Unmounted (socketRef s) (renders s));
      [done|done|by left|simpl..]; try done. by rewrite app_nil_r.
  - unfold step. rewrite dispatch_open_wired by done. simpl. unfold after_open.
    destruct (sockets s !! i) as [w|] eqn:Hi; [|done].
    case_decide as Hc; [|done].
    destruct (wired_current _ Hw _ _ Hi (or_introl Hc)) as [Hl Hr].
    split; simpl.
    + intros j w' Hj. destruct (decide (j = i)) as [->|Hji].
      * rewrite list_lookup_alter_eq, Hi in Hj. injection Hj as <-.
        apply (wired_handlers _ Hw _ _ Hi).
      * rewrite list_lookup_alter_ne in Hj by done.
        apply (wired_handlers _ Hw _ _ Hj).
    + intros j w' Hj Hcj. destruct (decide (j = i)) as [->|Hji]; [done|].
      rewrite list_lookup_alter_ne in Hj by done.
      apply (wired_current _ Hw _ _ Hj Hcj).
    + rewrite length_alter. apply (wired_count _ Hw).
  - unfold step. rewrite dispatch_message_wired by done.
    destruct (sockets s !! i) as [w|]; [|done].
    case_decide; [|done]. by destruct (JSON_parse data); [destruct Hw|].
  - unfold step. rewrite dispatch_close_wired by done. simpl. unfold after_close.
    destruct (sockets s !! i) as [w|] eqn:Hi; [|done].
    case_decide as Hc; [done|].
    split; simpl.
    + intros j w' Hj. destruct (decide (j = i)) as [->|Hji].
      * rewrite list_lookup_alter_eq, Hi in Hj. injection Hj as <-.
        apply (wired_handlers _ Hw _ _ Hi).
      * rewrite list_lookup_alter_ne in Hj by done.
        apply (wired_handlers _ Hw _ _ Hj).
    + intros j w' Hj Hcj. destruct (decide (j = i)) as [->|Hji].
      * rewrite list_lookup_alter_eq, Hi in Hj. injection Hj as <-.
        destruct Hcj as [?|?]; done.
      * rewrite list_lookup_alter_ne in Hj by done.
        apply (wired_current _ Hw _ _ Hj Hcj).
    + rewrite length_alter. apply (wired_count _ Hw).
  - rewrite step_tick.
    destruct (fire_tick_cases i r s) as [->|(iv & Hi & Hlive & Hb & ->)]; [done|].
    destruct Hw. by destruct (throws r).
Qed.

Lemma wired_reachable evs : wired (run JSON_parse initial evs).
Proof.
  induction evs as [|e evs IH] using rev_ind; [apply wired_initial|].
  rewrite run_snoc. apply wired_step; [apply inv_reachable|done].
Qed.


Lemma filter_connected_at_most_one s :
  wired s -> length (filter connected (sockets s)) <= 1.
Proof.
  intros Hw. apply filter_at_most_one.
  intros i j x y Hx Hy Px Py.
  destruct (wired_current _ Hw _ _ Hx Px) as [_ Hi].
  destruct (wired_current _ Hw _ _ Hy Py) as [_ Hj]. congruence.
Qed.

(** X2. At any time at most one socket is connecting or open: it is the
    one in [socketRef.current] of the mounted component.  Every other
    socket the hook ever created has had [close()] called on it, and once
    the component is unmounted that holds of all of them. *)
Theorem at_most_one_live_connection evs :
  let s := run JSON_parse initial evs in
  length (filter connected (sockets s)) <= 1 /\
  (forall i w, sockets s !! i = Some w -> socketRef s <> Some i -> closing w) /\
  (lifecycle s <> Mounted -> Forall closing (sockets s)).
Proof.
  intros s. pose proof (wired_reachable evs) as Hw. fold s in Hw.
  assert (forall w, ~ connected w -> closing w) as Hnc.
  { intros w H. unfold connected, closing in *.
    destruct (ws_readyState w); tauto. }
  split; [by apply filter_connected_at_most_one|]. split.
  - intros i w Hi Hr. apply Hnc. intros Hc.
    by destruct (wired_current _ Hw _ _ Hi Hc).
  - intros Hl. apply Forall_lookup. intros i w Hi. apply Hnc. intros Hc.
    by destruct (wired_current _ Hw _ _ Hi Hc).
Qed.

(** X3. [useBatchedMessages] passes a new arrow function to
    [useWebSocket] at every render, so every render of the mounted
    component, also one that repeats the arguments of the render before,
    calls [close()] on the socket in use and opens a new one to [url]; the
    hook has created exactly one socket per render. *)
Theorem every_render_reconnects evs url f bi k :
  let s := run JSON_parse initial evs in
  lifecycle s = Mounted -> socketRef s = Some k ->
  let s' := step JSON_parse s (Render url f bi) in
  length (sockets s) = renders s /\ k < renders s /\
  (exists w, sockets s' !! k = Some w /\ closing w) /\
  socketRef s' = Some (renders s) /\
  sockets s' !! renders s = Some (fresh_socket url (PushClosure (renders s))) /\
  length (sockets s') = S (renders s).
Proof.
  intros s Hl Hk s'. pose proof (inv_reachable evs) as Hinv.
  pose proof (wired_reachable evs) as Hw. fold s in Hinv, Hw.
  pose proof (wired_count _ Hw) as Hc.
  destruct (inv_mounted _ Hinv Hl)
    as (u & n & k' & d & f0 & t & Hwd & Hn & Hk' & Hkl & Ht & Hiv).
  rewrite Hk in Hk'. injection Hk' as <-.
  destruct (lookup_lt_is_Some_2 _ _ Hkl) as [w Hsk].
  split; [done|]. split; [lia|].
  unfold s'. rewrite step_render, Hl.
  erewrite useBatchedMessages_mounted by (try done; congruence). simpl.
  split; [|split; [by rewrite Hc|split]].
  - exists (close_socket w). rewrite lookup_app_l by (by rewrite length_alter).
    rewrite list_lookup_alter_eq, Hsk. split; [done|apply closing_close_socket].
  - rewrite <- Hc. rewrite lookup_app_r; rewrite length_alter; [|done].
    by rewrite Nat.sub_diag.
  - rewrite length_app, length_alter. simpl. lia.
Qed.

(** X4. A render that changes neither [batchInterval] nor
    [onBatchMessage] leaves the timer alone, whatever the address is: the
    interval that is live stays live and no other is created.  Passing no
    [batchInterval] and passing 100 are the same key. *)
Theorem render_with_same_timer_key_keeps_timer evs url f bi t :
  let s := run JSON_parse initial evs in
  tm_deps s = Some (default 100%Z bi, f, t) ->
  let s' := step JSON_parse s (Render url f bi) in
  intervals s' = intervals s /\ tm_deps s' = tm_deps s /\
  intervals s' !! t = Some (mkInterval (default 100%Z bi) f true) /\
  step JSON_parse s (Render url f (Some (default 100%Z bi))) = s'.
Proof.
  intros s Ht s'. pose proof (inv_reachable evs) as Hinv. fold s in Hinv.
  assert (lifecycle s = Mounted) as Hl.
  { destruct (lifecycle s) eqn:Hl; [|done|].
    - destruct (inv_fresh _ Hinv Hl) as (_ & _ & _ & ? & _). congruence.
    - destruct (inv_unmounted _ Hinv Hl) as (_ & ?). congruence. }
  destruct (inv_mounted _ Hinv Hl)
    as (u & n & k & d & f0 & t' & Hwd & Hn & Hk & Hkl & Ht' & Hiv).
  rewrite Ht in Ht'. injection Ht' as <- <- <-.
  split; [|split; [|split]].
  - unfold s'. rewrite step_render, Hl.
    erewrite useBatchedMessages_mounted by (try done; congruence). simpl.
    by rewrite decide_True.
  - unfold s'. rewrite step_render, Hl.
    erewrite useBatchedMessages_mounted by (try done; congruence). simpl.
    by rewrite decide_True.
  - unfold s'. rewrite step_render, Hl.
    erewrite useBatchedMessages_mounted by (try done; congruence). simpl.
    by rewrite decide_True.
  - done.
Qed.

(** X5. In a store the component reaches, a frame is forwarded only on
    the socket in use: on that socket, once open, a frame that decodes
    appends its message to the buffer exactly once and changes nothing
    else; a frame on any other socket, one already cleaned up included,
    changes nothing. *)
Theorem frame_reaches_buffer_exactly_once evs i data :
  let s := run JSON_parse initial evs in
  let s' := step JSON_parse s (SocketMessage i data) in
  (forall w message,
     sockets s !! i = Some w -> ws_readyState w = OPEN ->
     JSON_parse data = Some message ->
     socketRef s = Some i /\ lifecycle s = Mounted /\
     s' = push_all [message] s /\
     buffer s' = buffer s ++ [message] /\ arrived s' = arrived s ++ [message]) /\
  (socketRef s <> Some i \/ lifecycle s <> Mounted -> s' = s).
Proof.
  intros s s'. pose proof (inv_reachable evs) as Hinv.
  pose proof (wired_reachable evs) as Hw. fold s in Hinv, Hw.
  unfold s', step. rewrite dispatch_message_wired by done. split.
  - intros w message Hi Ho Hp. rewrite Hi, decide_True, Hp by done. simpl.
    destruct (wired_current _ Hw _ _ Hi (or_intror Ho)) as [Hl Hr].
    split; [done|]. split; [done|]. split; [done|].
    split; [|done]. apply buffer_push_all.
    apply (inv_batchRef _ Hinv). congruence.
  - intros Hstale. destruct (sockets s !! i) as [w|] eqn:Hi; [|done].
    case_decide as Ho; [|done].
    destruct (wired_current _ Hw _ _ Hi (or_intror Ho)) as [Hl Hr].
    by destruct Hstale.
Qed.

(** X8. The cleanup closes the socket but removes no handler: every
    socket the hook created keeps the three handlers of lines 8-10.  So
    the close event of any socket not yet closed, the ones already cleaned
    up included, logs "Websocket disconnected!" once; after it the socket
    is closed and further events on it change nothing. *)
Theorem close_event_logs_once evs i w data :
  let s := run JSON_parse initial evs in
  sockets s !! i = Some w ->
  (ws_onopen w = Some LogConnected /\
   (exists n, ws_onmessage w = Some (DecodeAndForward (PushClosure n))) /\
   ws_onclose w = Some LogDisconnected) /\
  let s1 := step JSON_parse s (SocketClose i) in
  (ws_readyState w <> CLOSED ->
   console s1 = console s ++ ["Websocket disconnected!"%string] /\
   sockets s1 = alter (set_readyState CLOSED) i (sockets s)) /\
  ws_readyState <$> sockets s1 !! i = Some CLOSED /\
  step JSON_parse s1 (SocketClose i) = s1 /\
  step JSON_parse s1 (SocketOpen i) = s1 /\
  step JSON_parse s1 (SocketMessage i data) = s1.
Proof.
  intros s Hi. pose proof (inv_reachable evs) as Hinv.
  pose proof (wired_reachable evs) as Hw. fold s in Hinv, Hw.
  split; [apply (wired_handlers _ Hw _ _ Hi)|].
  intros s1.
  pose proof (wired_step s (SocketClose i) Hinv Hw) as Hw1. fold s1 in Hw1.
  assert (s1 = after_close i s) as Hs1.
  { unfold s1, step. by rewrite dispatch_close_wired. }
  assert (exists w1, sockets s1 !! i = Some w1 /\ ws_readyState w1 = CLOSED)
    as (w1 & Hi1 & Hc1).
  { rewrite Hs1. unfold after_close. rewrite Hi.
    case_decide as Hc; [by exists w|]. simpl.
    rewrite list_lookup_alter_eq, Hi. simpl. eauto. }
  split; [|split; [by rewrite Hi1; simpl; rewrite Hc1|]].
  - intros Hc. rewrite Hs1. unfold after_close. rewrite Hi.
    by rewrite decide_False.
  - unfold step. rewrite dispatch_close_wired, dispatch_open_wired,
      dispatch_message_wired by done.
    unfold after_close, after_open. rewrite Hi1, Hc1. simpl.
    by repeat split.
Qed.

(** A tick whose consumer throws: nothing happened, or the buffer was
    delivered and stays the buffer. *)
Lemma step_throwing_tick s i r :
  throws r = true ->
  step JSON_parse s (Tick i r) = s \/
  exists iv, intervals s !! i = Some iv /\ iv_live iv = true /\ buffer s <> [] /\
    step JSON_parse s (Tick i r) = delivered_to (iv_onBatch iv) r s.
Proof.
  intros Hr. rewrite step_tick.
  destruct (fire_tick_cases i r s) as [->|(iv & Hi & Hlive & Hb & ->)];
    [by left|].
  right. exists iv. by rewrite Hr.
Qed.

Lemma delivered_to_calm f r s :
  during r = [] ->
  delivered_to f r s =
  set_batches (fun l => l ++ [mkDelivery f (batchRef s) (buffer s)]) s.
Proof. intros Hd. unfold delivered_to. by rewrite Hd, push_all_nil. Qed.

(** X6. A consumer that throws loses nothing.  As long as nothing is
    appended while [onBatchMessage] runs, whether its calls return or
    throw, every message that arrived is, in arrival order, among the
    messages delivered so far followed by the buffer: the messages of a
    failed call stay in the buffer and are delivered again. *)
Theorem no_arrival_lost_to_throwing_consumer evs :
  forallb calm evs = true ->
  let s := run JSON_parse initial evs in
  arrived s `sublist_of` delivered s ++ buffer s.
Proof.
  intros H s.
  cut (exists done, arrived s = done ++ buffer s /\ done `sublist_of` delivered s).
  { intros (A & -> & HA). by apply sublist_app. }
  subst s. induction evs as [|e evs IH] using rev_ind.
  { exists []. by split. }
  rewrite forallb_app in H. apply andb_true_iff in H as [H1 H2].
  simpl in H2. rewrite andb_true_r in H2.
  destruct (IH H1) as (A & HA & Hsub). clear IH.
  rewrite run_snoc. set (s := run JSON_parse initial evs) in *.
  pose proof (inv_reachable evs) as Hinv. fold s in Hinv.
  destruct (returns e) eqn:Hret.
  - destruct (step_observed s e Hinv Hret)
      as [(since & Hb & Ha & Hbuf & _)
         |(i & f & r & -> & Hr & Hnf & Hlk & Hne & Hb & Ha & Hbuf & _)].
    + exists A. unfold delivered. rewrite Hb, Ha, Hbuf, HA.
      split; [by rewrite app_assoc|done].
    + assert (during r = []) as Hd by (simpl in H2; by destruct (during r)).
      exists (A ++ buffer s). rewrite (delivered_snoc _ _ _ Hb), Ha, Hbuf, Hd, HA.
      simpl. rewrite !app_nil_r. split; [done|]. by apply sublist_app.
  - destruct e as [| | | | |i r]; try done.
    simpl in Hret. apply negb_false_iff in Hret.
    assert (during r = []) as Hd by (simpl in H2; by destruct (during r)).
    destruct (step_throwing_tick s i r Hret) as [->|(iv & _ & _ & _ & ->)];
      [by exists A|].
    rewrite delivered_to_calm by done.
    exists A. split; [done|].
    unfold delivered. simpl. rewrite fmap_app, concat_app.
    by apply sublist_inserts_r.
Qed.

(** Once unmounted, the component's buffer, timers and deliveries are
    out of reach of every event. *)
Lemma step_unmounted s e :
  inv s -> wired s -> lifecycle s = Unmounted ->
  let s' := step JSON_parse s e in
  lifecycle s' = Unmounted /\ batches s' = batches s /\
  arrived s' = arrived s /\ arrays s' = arrays s /\ batchRef s' = batchRef s /\
  intervals s' = intervals s.
Proof.
  intros Hinv Hw Hl.
  destruct e as [url f bi| |i|i data|i|i r]; simpl.
  - by rewrite step_render, Hl.
  - by rewrite step_unmount, Hl.
  - unfold step. rewrite dispatch_open_wired by done. simpl. unfold after_open.
    destruct (sockets s !! i) as [w|] eqn:Hi; [|done]. by case_decide.
  - unfold step. rewrite dispatch_message_wired by done.
    destruct (sockets s !! i) as [w|] eqn:Hi; [|done].
    case_decide as Ho; [|done].
    destruct (wired_current _ Hw _ _ Hi (or_intror Ho)). congruence.
  - unfold step. rewrite dispatch_close_wired by done. simpl. unfold after_close.
    destruct (sockets s !! i) as [w|] eqn:Hi; [|done]. by case_decide.
  - rewrite step_tick.
    destruct (fire_tick_cases i r s) as [->|(iv & Hi & Hlive & _)]; [done|].
    destruct (inv_live _ Hinv _ _ Hi Hlive) as [d Hd].
    destruct (inv_unmounted _ Hinv Hl). congruence.
Qed.

(** X7. Unmounting is final and flushes nothing.  After it no event
    delivers a batch, appends a message or revives a timer, so the messages
    that were in the buffer when the component was unmounted are never
    handed to [onBatchMessage]. *)
Theorem unmount_discards_the_buffer evs evs' :
  let s := run JSON_parse initial evs in
  lifecycle s = Unmounted ->
  let s' := run JSON_parse s evs' in
  lifecycle s' = Unmounted /\ batches s' = batches s /\
  buffer s' = buffer s /\ arrived s' = arrived s /\
  live_timers s' = [] /\ Forall closing (sockets s').
Proof.
  intros s Hl s'.
  assert (lifecycle s' = Unmounted /\ batches s' = batches s /\
          arrived s' = arrived s /\ arrays s' = arrays s /\
          batchRef s' = batchRef s) as (Hl' & Hb & Ha & Har & Hbr).
  { unfold s'. induction evs' as [|e evs' IH] using rev_ind; [done|].
    rewrite run_snoc. destruct IH as (Hl0 & Hb0 & Ha0 & Har0 & Hbr0).
    destruct (step_unmounted (run JSON_parse s evs') e)
      as (? & ? & ? & ? & ? & _); [| |done|].
    - unfold s. rewrite <- run_snoc_app. apply inv_reachable.
    - unfold s. rewrite <- run_snoc_app. apply wired_reachable.
    - repeat split; congruence. }
  assert (s' = run JSON_parse initial (evs ++ evs')) as Hs'
    by (unfold s', s; by rewrite run_snoc_app).
  split; [done|]. split; [done|].
  split; [unfold buffer; by rewrite Har, Hbr|]. split; [done|]. split.
  - apply live_timers_none.
    + rewrite Hs'. apply inv_reachable.
    + assert (inv s') as Hinv' by (rewrite Hs'; apply inv_reachable).
      by destruct (inv_unmounted _ Hinv' Hl').
  - assert (wired s') as Hw' by (rewrite Hs'; apply wired_reachable).
    apply Forall_lookup. intros i w Hi.
    destruct (decide (connected w)) as [Hc|Hc].
    + destruct (wired_current _ Hw' _ _ Hi Hc). congruence.
    + unfold connected, closing in *. destruct (ws_readyState w); tauto.
Qed.

Lemma step_keeps_retired_array s e a :
  inv s -> a < length (arrays s) -> a <> batchRef s ->
  let s' := step JSON_parse s e in
  arrays s' !! a = arrays s !! a /\ a < length (arrays s') /\ a <> batchRef s'.
Proof.
  intros Hinv Hlt Hne. simpl.
  destruct (returns e) eqn:Hret.
  - destruct (step_observed s e Hinv Hret)
      as [(since & _ & _ & _ & Hbr & Hlen & Hsame)
         |(i & f & r & -> & _ & _ & _ & _ & _ & _ & _ & Hbr & Har)].
    + rewrite Hbr. split; [by apply Hsame|]. split; [lia|done].
    + rewrite Hbr, Har. rewrite lookup_app_l by (by rewrite length_alter).
      rewrite list_lookup_alter_ne by done.
      rewrite length_app, length_alter. simpl. split; [done|]. split; lia.
  - destruct e as [| | | | |i r]; try done.
    simpl in Hret. apply negb_false_iff in Hret.
    destruct (step_throwing_tick s i r Hret) as [->|(iv & _ & _ & _ & ->)];
      [done|].
    simpl. rewrite list_lookup_alter_ne by done. by rewrite length_alter.
Qed.

(** X9. An array that is no longer the buffer is never written again,
    whatever the consumers do: the per-message closure pushes onto
    [batchRef.current] only, and [batchRef.current] only ever moves to a
    new array.  In particular a batch whose call returned keeps its
    contents for good. *)
Theorem retired_array_is_never_written evs evs' a :
  let s := run JSON_parse initial evs in
  a < length (arrays s) -> a <> batchRef s ->
  let s' := run JSON_parse s evs' in
  arrays s' !! a = arrays s !! a /\ a <> batchRef s'.
Proof.
  intros s Hlt Hne s'.
  cut (arrays s' !! a = arrays s !! a /\ a < length (arrays s') /\ a <> batchRef s').
  { tauto. }
  unfold s'. induction evs' as [|e evs' IH] using rev_ind; [done|].
  rewrite run_snoc. destruct IH as (Hsame & Hlt' & Hne').
  destruct (step_keeps_retired_array (run JSON_parse s evs') e a)
    as (H1 & H2 & H3); try done.
  - unfold s. rewrite <- run_snoc_app. apply inv_reachable.
  - split; [congruence|done].
Qed.

End Facts.

(** * The theorems at concrete inputs *)

(** The first render of a component that calls [useWebSocket]. *)
Lemma useWebSocket_returns_handle_of_previous_pass_witness :
  ws_wf (@initial nat) /\
  exists s',
    useWebSocket feed (Extern 0) (@initial nat) = (Normal None, s') /\
    socketRef s' = Some 0 /\
    sockets s' !! 0 = Some (fresh_socket feed (Extern 0)).
Proof.
  assert (ws_wf (@initial nat)) as Hwf.
  { split; simpl; [intros k H; discriminate | intros [x H]; discriminate]. }
  split; [exact Hwf|].
  destruct (useWebSocket_returns_handle_of_previous_pass feed (Extern 0) initial Hwf)
    as (s' & E & Hfirst & _).
  exists s'. split; [exact E|]. apply Hfirst; reflexivity.
Defined.

(** A second render with another callback, and one with the same. *)
Lemma useWebSocket_reconnects_on_changed_key_witness :
  (ws_deps adapter_mounted = Some (feed, Extern 0) /\
   socketRef adapter_mounted = Some 0 /\
   sockets adapter_mounted !! 0 = Some (fresh_socket feed (Extern 0))) /\
  (exists s',
     useWebSocket feed (Extern 1) adapter_mounted = (Normal (Some 0), s') /\
     ws_readyState <$> sockets s' !! 0 = Some CLOSING /\
     socketRef s' = Some 1 /\
     sockets s' !! 1 = Some (fresh_socket feed (Extern 1))) /\
  useWebSocket feed (Extern 0) adapter_mounted = (Normal (Some 0), adapter_mounted).
Proof.
  assert (ws_deps adapter_mounted = Some (feed, Extern 0)) as H1 by reflexivity.
  assert (socketRef adapter_mounted = Some 0) as H2 by reflexivity.
  assert (sockets adapter_mounted !! 0 = Some (fresh_socket feed (Extern 0)))
    as H3 by reflexivity.
  split; [by repeat split|]. split.
  - destruct (useWebSocket_reconnects_on_changed_key
                feed (Extern 0) feed (Extern 1) 0 _ adapter_mounted H1 H2 H3)
      as (s' & E & Hs').
    rewrite decide_False in Hs' by (intros [_ [=]]).
    destruct Hs' as (_ & Hk & _ & Hr & Hn & _).
    exists s'. split; [exact E|]. split; [by rewrite Hk|]. split; [exact Hr|exact Hn].
  - destruct (useWebSocket_reconnects_on_changed_key
                feed (Extern 0) feed (Extern 0) 0 _ adapter_mounted H1 H2 H3)
      as (s' & E & Hs').
    rewrite decide_True in Hs' by done. rewrite Hs' in E. exact E.
Defined.

(** C4, against the claim as stated: handling the frame "{" writes nothing
    to the console. *)
Lemma malformed_frame_is_not_logged :
  ~ drops_and_logs parse_integer mounted_open 0 "{".
Proof. intros [[line H] _]. vm_compute in H. discriminate. Qed.

(** The frame "{" on the open socket, followed by the frame "23". *)
Lemma malformed_frame_throws_and_is_dropped_witness :
  (sockets mounted_open !! 0 =
     Some (mkWebSocket feed OPEN (Some LogConnected)
             (Some (DecodeAndForward (PushClosure 0))) (Some LogDisconnected)) /\
   parse_integer "{" = None) /\
  dispatch parse_integer (SocketMessage 0 "{") mounted_open =
    (Throw SyntaxError, mounted_open) /\
  buffer (run parse_integer mounted_open [SocketMessage 0 "{"; SocketMessage 0 "23"])
    = [23].
Proof.
  assert (sockets mounted_open !! 0 =
     Some (mkWebSocket feed OPEN (Some LogConnected)
             (Some (DecodeAndForward (PushClosure 0))) (Some LogDisconnected)))
    as H1 by reflexivity.
  assert (parse_integer "{" = None) as H2 by reflexivity.
  split; [by split|].
  destruct (malformed_frame_throws_and_is_dropped parse_integer mounted_open 0 _
              (PushClosure 0) "{" H1 eq_refl eq_refl H2) as (E & Hs & Hnext).
  split; [exact E|].
  simpl. rewrite Hs. reflexivity.
Defined.

(** A tick on an empty buffer, and the batches of a run with two ticks. *)
Lemma onBatchMessage_never_called_with_empty_batch_witness :
  buffer (run parse_integer initial [Render feed 7 None; SocketOpen 0]) = [] /\
  dispatch parse_integer (Tick 0 (ok []))
    (run parse_integer initial [Render feed 7 None; SocketOpen 0]) =
  (Normal tt, run parse_integer initial [Render feed 7 None; SocketOpen 0]) /\
  Forall (fun d => d_items d <> [])
    (batches (run parse_integer initial
                [Render feed 7 None; SocketOpen 0; SocketMessage 0 "1";
                 Tick 0 (ok []); Tick 0 (ok [])])).
Proof.
  assert (buffer (run parse_integer initial [Render feed 7 None; SocketOpen 0]) = [])
    as H by (vm_compute; reflexivity).
  split; [exact H|]. split.
  - exact (proj2 (onBatchMessage_never_called_with_empty_batch parse_integer
                    [Render feed 7 None; SocketOpen 0] 0 (ok [])) H).
  - exact (proj1 (onBatchMessage_never_called_with_empty_batch parse_integer
                    [Render feed 7 None; SocketOpen 0; SocketMessage 0 "1";
                     Tick 0 (ok []); Tick 0 (ok [])] 0 (ok []))).
Defined.

(** A throwing tick with ["1"] buffered, then two frames and a tick. *)
Lemma timer_survives_throwing_onBatchMessage_witness :
  (intervals one_buffered !! 0 = Some (mkInterval 100 7 true) /\
   buffer one_buffered <> [] /\
   forallb (@is_socket_event nat) [SocketMessage 0 "2"; SocketMessage 0 "{"] = true) /\
  let s1 := step parse_integer one_buffered (Tick 0 (failing [])) in
  let s2 := run parse_integer s1 [SocketMessage 0 "2"; SocketMessage 0 "{"] in
  intervals s2 !! 0 = Some (mkInterval 100 7 true) /\
  exists since,
    arrived s2 = arrived s1 ++ since /\
    batches (step parse_integer s2 (Tick 0 (ok []))) =
    batches s1 ++ [mkDelivery 7 0 (buffer s1 ++ since)].
Proof.
  assert (intervals one_buffered !! 0 = Some (mkInterval 100 7 true)) as H1
    by (vm_compute; reflexivity).
  assert (buffer one_buffered <> []) as H2 by (vm_compute; discriminate).
  assert (forallb (@is_socket_event nat) [SocketMessage 0 "2"; SocketMessage 0 "{"] = true)
    as H3 by (vm_compute; reflexivity).
  split; [by repeat split|].
  destruct (timer_survives_throwing_onBatchMessage parse_integer one_buffered 0 _
              (failing []) _ (ok []) H1 eq_refl H2 eq_refl H3)
    as (_ & _ & Hlive & since & Ha & _ & Hb).
  split; [exact Hlive|]. exists since. split; [exact Ha|].
  replace 0 with (batchRef one_buffered) at 3 by (vm_compute; reflexivity).
  exact Hb.
Defined.

(** C1, against the claim as stated.  With ["1"] buffered, a message 2
    appended while [onBatchMessage] runs is pushed onto the delivered array
    and is not in the buffer after the flush; and when [onBatchMessage]
    throws, no new array is installed at all. *)
Lemma message_during_onBatchMessage_misses_new_buffer :
  ~ swaps_before_delivery parse_integer one_buffered 0 (ok [2]) /\
  ~ swaps_before_delivery parse_integer one_buffered 0 (failing []).
Proof.
  split.
  - intros [H _]. vm_compute in H. discriminate.
  - intros [_ H]. apply H. vm_compute. reflexivity.
Qed.

(** Where the message went: onto the array already handed over. *)
Example message_during_onBatchMessage_is_lost :
  let s' := run parse_integer one_buffered [Tick 0 (ok [2]); Tick 0 (ok [])] in
  arrived s' = [1; 2] /\ delivered s' = [1] /\ buffer s' = [] /\
  arrays s' !! 0 = Some [1; 2].
Proof. vm_compute. by repeat split. Qed.

(** A quiet tick with ["1"] buffered, then the message 2. *)
Lemma flush_swaps_after_delivery_witness :
  (intervals one_buffered !! 0 = Some (mkInterval 100 7 true) /\
   buffer one_buffered <> []) /\
  let s' := step parse_integer one_buffered (Tick 0 (ok [])) in
  batches s' =
    batches one_buffered ++ [mkDelivery 7 (batchRef one_buffered) (buffer one_buffered)] /\
  buffer s' = [] /\
  arrays s' !! batchRef one_buffered = Some (buffer one_buffered) /\
  buffer (snd (push 2 s')) = [2] /\
  arrays (snd (push 2 s')) !! batchRef one_buffered = Some (buffer one_buffered).
Proof.
  assert (intervals one_buffered !! 0 = Some (mkInterval 100 7 true)) as H1
    by (vm_compute; reflexivity).
  assert (buffer one_buffered <> []) as H2 by (vm_compute; discriminate).
  split; [by split|].
  destruct (flush_swaps_after_delivery parse_integer one_buffered 0 _ (ok [])
              H1 eq_refl H2 eq_refl eq_refl)
    as (_ & Hb & _ & _ & Hbuf & Hold & _ & Hnext).
  destruct (Hnext 2) as (Hn1 & Hn2 & _).
  split; [exact Hb|]. split; [exact Hbuf|]. split; [exact Hold|].
  split; [exact Hn1|exact Hn2].
Defined.

(** C2, against the claim as stated.  After a tick whose [onBatchMessage]
    threw, the next tick delivers the same array with the same message
    again; and a message appended while [onBatchMessage] runs is in no
    batch and not in the buffer. *)
Lemma throwing_onBatchMessage_is_delivered_twice :
  ~ exactly_once
      (run parse_integer one_buffered [Tick 0 (failing []); Tick 0 (ok [])]) /\
  ~ exactly_once
      (run parse_integer one_buffered [Tick 0 (ok [2]); Tick 0 (ok [])]).
Proof.
  split; intros [H _]; vm_compute in H; discriminate.
Qed.

(** The two deliveries around a failed call. *)
Example failed_batch_is_delivered_again :
  batches (run parse_integer one_buffered
             [Tick 0 (failing []); SocketMessage 0 "2"; Tick 0 (ok [])]) =
  [mkDelivery 7 0 [1]; mkDelivery 7 0 [1; 2]].
Proof. vm_compute. reflexivity. Qed.

(** Four frames and two quiet ticks. *)
Lemma batches_partition_arrivals_witness :
  let evs := [Render feed 7 None; SocketOpen 0; SocketMessage 0 "1";
              Tick 0 (ok []); SocketMessage 0 "2"; SocketMessage 0 "3";
              Tick 0 (ok []); SocketMessage 0 "4"] in
  forallb quiet evs = true /\
  exactly_once (run parse_integer initial evs).
Proof.
  intros evs.
  assert (forallb quiet evs = true) as H by (vm_compute; reflexivity).
  split; [exact H|].
  exact (proj1 (batches_partition_arrivals parse_integer evs H)).
Defined.

(** One interval with a malformed frame in it, and a run with two batches. *)
Lemma flush_delivers_the_interval_in_order_witness :
  (intervals mounted_open !! 0 = Some (mkInterval 100 7 true) /\
   arrays mounted_open !! batchRef mounted_open = Some [] /\
   let evs := [Render feed 7 None; SocketOpen 0; SocketMessage 0 "1";
               SocketMessage 0 "2"; Tick 0 (ok []); SocketMessage 0 "3";
               Tick 0 (ok [9])] in
   forallb returns evs = true /\
   StronglySorted (fun x y => x <= y) (arrived (run parse_integer initial evs)) /\
   batches (run parse_integer initial evs) =
     [] ++ [mkDelivery 7 0 [1; 2]; mkDelivery 7 1 [3]]) /\
  (let s1 := run parse_integer mounted_open
               [SocketMessage 0 "1"; SocketMessage 0 "{"; SocketMessage 0 "23"] in
   let s2 := step parse_integer s1 (Tick 0 (ok [])) in
   exists msgs,
     arrived s1 = arrived mounted_open ++ msgs /\
     batches s2 =
       batches mounted_open ++
       match msgs with
       | [] => []
       | _ => [mkDelivery 7 (batchRef mounted_open) msgs]
       end /\
     buffer s2 = []) /\
  2 <= 3.
Proof.
  assert (intervals mounted_open !! 0 = Some (mkInterval 100 7 true)) as H1
    by (vm_compute; reflexivity).
  assert (arrays mounted_open !! batchRef mounted_open = Some []) as H2
    by (vm_compute; reflexivity).
  set (evs := [Render feed 7 None; SocketOpen 0; SocketMessage 0 "1";
               SocketMessage 0 "2"; Tick 0 (ok []); SocketMessage 0 "3";
               Tick 0 (ok [9])]).
  assert (forallb returns evs = true) as H3 by (vm_compute; reflexivity).
  assert (StronglySorted (fun x y => x <= y) (arrived (run parse_integer initial evs)))
    as H4 by (vm_compute; repeat constructor).
  assert (batches (run parse_integer initial evs) =
            [] ++ [mkDelivery 7 0 [1; 2]; mkDelivery 7 1 [3]]) as H5
    by (vm_compute; reflexivity).
  split; [by repeat split|]. split.
  - exact (proj1 (flush_delivers_the_interval_in_order parse_integer)
             mounted_open 0 _
             [SocketMessage 0 "1"; SocketMessage 0 "{"; SocketMessage 0 "23"]
             (ok []) H1 eq_refl H2 eq_refl eq_refl).
  - apply (proj2 (flush_delivers_the_interval_in_order parse_integer)
             evs (fun n => n) [] (mkDelivery 7 0 [1; 2]) (mkDelivery 7 1 [3]) []
             2 3 H3 H4 H5); simpl; repeat constructor.
Defined.

(** Unmounting, and a render that changes the interval to 250. *)
Lemma every_exit_cancels_timer_and_closes_socket_witness :
  let s := run parse_integer initial [Render feed 7 None; SocketOpen 0] in
  (socketRef s = Some 0 /\ tm_deps s = Some (100%Z, 7, 0)) /\
  length (live_timers s) <= 1 /\
  intervals (step parse_integer s Unmount) !! 0 = Some (mkInterval 100 7 false) /\
  live_timers (step parse_integer s Unmount) = [] /\
  intervals (step parse_integer s (Render feed 7 (Some 250%Z))) !! 0 =
    Some (mkInterval 100 7 false) /\
  (exists w, sockets (step parse_integer s (Render feed 7 (Some 250%Z))) !! 0 = Some w /\
             closing w).
Proof.
  intros s.
  assert (socketRef s = Some 0) as H1 by (vm_compute; reflexivity).
  assert (tm_deps s = Some (100%Z, 7, 0)) as H2 by (vm_compute; reflexivity).
  split; [by split|].
  destruct (every_exit_cancels_timer_and_closes_socket parse_integer
              [Render feed 7 None; SocketOpen 0]) as [Hone Hexit].
  destruct (Hexit 0 100%Z 7 0 H1 H2) as (_ & _ & (Hu1 & _ & Hu3) & Hr).
  destruct (Hr feed 7 (Some 250%Z)) as (Hr1 & Hr2 & _).
  { left. simpl. lia. }
  split; [exact Hone|]. split; [exact Hu1|]. split; [exact Hu3|].
  split; [exact Hr1|exact Hr2].
Defined.

(** A render that changes address, consumer and interval with ["1"]
    buffered, then a frame on the new socket. *)
Lemma reconfiguration_keeps_the_buffer_witness :
  let s := run parse_integer initial
             [Render feed 7 None; SocketOpen 0; SocketMessage 0 "1"] in
  let s' := step parse_integer s (Render "wss://other" 8 (Some 250%Z)) in
  lifecycle s = Mounted /\
  buffer s' = buffer s /\ batches s' = batches s /\
  exists t,
    tm_deps s' = Some (250%Z, 8, t) /\
    batches (step parse_integer
               (run parse_integer s' [SocketOpen (length (sockets s));
                                      SocketMessage (length (sockets s)) "2"])
               (Tick t (ok []))) =
    batches s ++ [mkDelivery 8 (batchRef s) (buffer s ++ [2])].
Proof.
  intros s s'.
  assert (lifecycle s = Mounted) as H by (vm_compute; reflexivity).
  split; [exact H|].
  destruct (reconfiguration_keeps_the_buffer parse_integer
              [Render feed 7 None; SocketOpen 0; SocketMessage 0 "1"]
              "wss://other" 8 (Some 250%Z) H)
    as (Hbuf & _ & Hbt & _ & t & Ht & _ & _ & Hmix).
  split; [exact Hbuf|]. split; [exact Hbt|].
  exists t. split; [exact Ht|].
  destruct (Hmix "2" 2 (ok []) eq_refl) as (_ & _ & _ & _ & Hb).
  exact Hb.
Defined.

(** * The reducer of the README *)

Section ReduxFacts.

Context {Price : Type}.

Implicit Types (st : gmap string Price) (b : list (stock Price)).

Lemma add_stock_insert st (x : stock Price) :
  add_stock st x = <[stock_id x := stock_price x]> st.
Proof. unfold add_stock, spread. by rewrite insert_union_singleton_l. Qed.

Lemma foldl_add_stock_union st b :
  foldl add_stock st b = foldl add_stock ∅ b ∪ st.
Proof.
  induction b as [|x b IH] using rev_ind.
  - simpl. by rewrite (left_id_L ∅ (∪)).
  - rewrite !foldl_snoc, !add_stock_insert, IH. by rewrite insert_union_l.
Qed.

Lemma foldl_add_stock_app b1 b2 :
  foldl add_stock ∅ (b1 ++ b2) = foldl add_stock ∅ b2 ∪ foldl add_stock ∅ b1.
Proof. by rewrite foldl_app, foldl_add_stock_union. Qed.

Lemma stockReducer_batch st b :
  stockReducer (Some st) (batchStockUpdates b) = foldl add_stock ∅ b ∪ st.
Proof. done. Qed.

Lemma dispatch_batches_concat st (bs : list (list (stock Price))) :
  dispatch_batches st bs = stockReducer (Some st) (batchStockUpdates (concat bs)).
Proof.
  induction bs as [|b bs IH] using rev_ind.
  - rewrite stockReducer_batch. unfold dispatch_batches. simpl.
    by rewrite (left_id_L ∅ (∪)).
  - unfold dispatch_batches in *. rewrite foldl_snoc, IH, concat_app.
    simpl. rewrite app_nil_r.
    rewrite !stockReducer_batch, foldl_add_stock_app. by rewrite (assoc_L (∪)).
Qed.

(** X10. How the updates are cut into batches does not matter to the
    store: reducing one batch after the other gives the state that one
    batch of all the updates gives, so two ways of batching the same
    updates end in the same state. *)
Theorem batching_is_transparent_to_the_store st b1 b2
    (bs bs' : list (list (stock Price))) :
  concat bs = concat bs' ->
  stockReducer (Some (stockReducer (Some st) (batchStockUpdates b1)))
    (batchStockUpdates b2) =
  stockReducer (Some st) (batchStockUpdates (b1 ++ b2)) /\
  dispatch_batches st bs = stockReducer (Some st) (batchStockUpdates (concat bs)) /\
  dispatch_batches st bs = dispatch_batches st bs'.
Proof.
  intros H. split; [|split].
  - rewrite !stockReducer_batch, foldl_add_stock_app. by rewrite (assoc_L (∪)).
  - apply dispatch_batches_concat.
  - by rewrite !dispatch_batches_concat, H.
Qed.

Lemma foldl_add_stock_lookup st b k :
  foldl add_stock st b !! k =
  match last_price k b with
  | Some p => Some p
  | None => st !! k
  end.
Proof.
  induction b as [|x b IH] using rev_ind; [done|].
  rewrite foldl_snoc, add_stock_insert. unfold last_price in *.
  rewrite filter_app.
  destruct (decide (stock_id x = k)) as [<-|Hne].
  - rewrite (filter_cons_True _ x []) by done. rewrite filter_nil, last_snoc.
    simpl. by rewrite lookup_insert_eq.
  - rewrite (filter_cons_False _ x []) by done. rewrite filter_nil, app_nil_r.
    by rewrite lookup_insert_ne.
Qed.

(** X11. What the reducer does to one stock: after a batch, the price of
    an id is the price of the last update for that id in the batch, and an
    id the batch does not mention keeps the price it had (none, if the
    state was [undefined]).  An action of any other type returns the state
    as it is, the empty object for [undefined]. *)
Theorem stockReducer_last_update_wins (state : option (gmap string Price)) b k a :
  action_type a <> "BATCH_STOCK_UPDATES"%string ->
  stockReducer state (batchStockUpdates b) !! k =
    match last_price k b with
    | Some p => Some p
    | None => default ∅ state !! k
    end /\
  stockReducer state a = default ∅ state.
Proof.
  intros Ha. split.
  - rewrite <- foldl_add_stock_lookup, foldl_add_stock_union. by destruct state.
  - unfold stockReducer. by rewrite decide_False.
Qed.

End ReduxFacts.

(** X12. The hook and the reducer together.  As long as every
    [onBatchMessage] call returns and appends nothing while it runs,
    dispatching each delivered batch in turn and then what is still
    buffered leaves the store in the state that one batch of all the
    arrivals gives: batching delays the updates and changes nothing else. *)
Theorem delivered_batches_reduce_to_the_arrivals {Price : Type}
    (JSON_parse : string -> option (stock Price))
    (evs : list (event (stock Price))) (st : gmap string Price) :
  forallb quiet evs = true ->
  let s := run JSON_parse initial evs in
  stockReducer (Some (dispatch_batches st (d_items <$> batches s)))
    (batchStockUpdates (buffer s)) =
  stockReducer (Some st) (batchStockUpdates (arrived s)).
Proof.
  intros H s.
  destruct (tidy_run JSON_parse evs H) as [Hp _ _]. fold s in Hp.
  rewrite dispatch_batches_concat. fold (delivered s). rewrite <- Hp.
  rewrite !stockReducer_batch, foldl_add_stock_app. by rewrite (assoc_L (∪)).
Qed.

Example parse_stock_frame :
  parse_stock (stock_frame "AAPL" "101") = Some (mkStock "AAPL" 101) /\
  parse_stock (stock_frame "AAPL" "0101") = None /\
  parse_stock "{" = None.
Proof. vm_compute. by repeat split. Qed.

(** * The further properties at concrete inputs *)


(** After a second render the first socket is closing and is not the one
    in use. *)
Lemma at_most_one_live_connection_witness :
  let s := run parse_integer initial
             [Render feed 7 None; SocketOpen 0; Render feed 7 None] in
  (sockets s !! 0 =
     Some (mkWebSocket feed CLOSING (Some LogConnected)
             (Some (DecodeAndForward (PushClosure 0))) (Some LogDisconnected)) /\
   socketRef s <> Some 0) /\
  length (filter connected (sockets s)) <= 1 /\
  closing (mkWebSocket feed CLOSING (Some LogConnected)
             (Some (DecodeAndForward (PushClosure 0))) (Some LogDisconnected)).
Proof.
  intros s.
  assert (sockets s !! 0 =
     Some (mkWebSocket feed CLOSING (Some LogConnected)
             (Some (DecodeAndForward (PushClosure 0))) (Some LogDisconnected)))
    as H1 by (vm_compute; reflexivity).
  assert (socketRef s <> Some 0) as H2 by (vm_compute; discriminate).
  split; [by split|].
  destruct (at_most_one_live_connection parse_integer
              [Render feed 7 None; SocketOpen 0; Render feed 7 None])
    as (Hone & Hother & _).
  split; [exact Hone|]. exact (Hother 0 _ H1 H2).
Defined.

(** A render that repeats the arguments of the first. *)
Lemma every_render_reconnects_witness :
  let s := run parse_integer initial [Render feed 7 None; SocketOpen 0] in
  let s' := step parse_integer s (Render feed 7 None) in
  (lifecycle s = Mounted /\ socketRef s = Some 0) /\
  (exists w, sockets s' !! 0 = Some w /\ closing w) /\
  socketRef s' = Some (renders s) /\
  sockets s' !! renders s = Some (fresh_socket feed (PushClosure (renders s))).
Proof.
  intros s s'.
  assert (lifecycle s = Mounted) as H1 by (vm_compute; reflexivity).
  assert (socketRef s = Some 0) as H2 by (vm_compute; reflexivity).
  split; [by split|].
  destruct (every_render_reconnects parse_integer
              [Render feed 7 None; SocketOpen 0] feed 7 None 0 H1 H2)
    as (_ & _ & Hold & Hr & Hnew & _).
  split; [exact Hold|]. split; [exact Hr|exact Hnew].
Defined.

(** A render that changes the address only. *)
Lemma render_with_same_timer_key_keeps_timer_witness :
  let s := run parse_integer initial [Render feed 7 None; SocketOpen 0] in
  let s' := step parse_integer s (Render "wss://other" 7 None) in
  tm_deps s = Some (default 100%Z None, 7, 0) /\
  intervals s' = intervals s /\
  intervals s' !! 0 = Some (mkInterval (default 100%Z None) 7 true).
Proof.
  intros s s'.
  assert (tm_deps s = Some (default 100%Z None, 7, 0)) as H
    by (vm_compute; reflexivity).
  split; [exact H|].
  destruct (render_with_same_timer_key_keeps_timer parse_integer
              [Render feed 7 None; SocketOpen 0] "wss://other" 7 None 0 H)
    as (Hiv & _ & Hlive & _).
  split; [exact Hiv|exact Hlive].
Defined.

(** The frame "1" on the open socket in use, and on a socket that a
    later render has cleaned up. *)
Lemma frame_reaches_buffer_exactly_once_witness :
  (let s := run parse_integer initial [Render feed 7 None; SocketOpen 0] in
   (sockets s !! 0 =
      Some (mkWebSocket feed OPEN (Some LogConnected)
              (Some (DecodeAndForward (PushClosure 0))) (Some LogDisconnected)) /\
    parse_integer "1" = Some 1) /\
   buffer (step parse_integer s (SocketMessage 0 "1")) = buffer s ++ [1]) /\
  (let s := run parse_integer initial
              [Render feed 7 None; SocketOpen 0; Render feed 7 None] in
   socketRef s <> Some 0 /\
   step parse_integer s (SocketMessage 0 "1") = s).
Proof.
  split.
  - intros s.
    assert (sockets s !! 0 =
      Some (mkWebSocket feed OPEN (Some LogConnected)
              (Some (DecodeAndForward (PushClosure 0))) (Some LogDisconnected)))
      as H1 by (vm_compute; reflexivity).
    assert (parse_integer "1" = Some 1) as H2 by (vm_compute; reflexivity).
    split; [by split|].
    destruct (proj1 (frame_reaches_buffer_exactly_once parse_integer
                       [Render feed 7 None; SocketOpen 0] 0 "1") _ 1 H1 eq_refl H2)
      as (_ & _ & _ & Hbuf & _).
    exact Hbuf.
  - intros s.
    assert (socketRef s <> Some 0) as H by (vm_compute; discriminate).
    split; [exact H|].
    exact (proj2 (frame_reaches_buffer_exactly_once parse_integer
                    [Render feed 7 None; SocketOpen 0; Render feed 7 None] 0 "1")
             (or_introl H)).
Defined.

(** A failed call followed by a frame and a call that returns. *)
Lemma no_arrival_lost_to_throwing_consumer_witness :
  let evs := [Render feed 7 None; SocketOpen 0; SocketMessage 0 "1";
              Tick 0 (failing []); SocketMessage 0 "2"; Tick 0 (ok []);
              SocketMessage 0 "3"] in
  forallb calm evs = true /\
  arrived (run parse_integer initial evs) `sublist_of`
    delivered (run parse_integer initial evs) ++
    buffer (run parse_integer initial evs).
Proof.
  intros evs.
  assert (forallb calm evs = true) as H by (vm_compute; reflexivity).
  split; [exact H|].
  exact (no_arrival_lost_to_throwing_consumer parse_integer evs H).
Defined.

(** Unmounting with the message 1 buffered, then a tick, a frame and a
    render. *)
Lemma unmount_discards_the_buffer_witness :
  let s := run parse_integer initial
             [Render feed 7 None; SocketOpen 0; SocketMessage 0 "1"; Unmount] in
  let s' := run parse_integer s
              [Tick 0 (ok []); SocketMessage 0 "2"; Render feed 7 None] in
  (lifecycle s = Unmounted /\ buffer s = [1]) /\
  batches s' = batches s /\ buffer s' = buffer s /\ live_timers s' = [].
Proof.
  intros s s'.
  assert (lifecycle s = Unmounted) as H by (vm_compute; reflexivity).
  assert (buffer s = [1]) as Hb by (vm_compute; reflexivity).
  split; [by split|].
  destruct (unmount_discards_the_buffer parse_integer
              [Render feed 7 None; SocketOpen 0; SocketMessage 0 "1"; Unmount]
              [Tick 0 (ok []); SocketMessage 0 "2"; Render feed 7 None] H)
    as (_ & Hbt & Hbuf & _ & Hlive & _).
  split; [exact Hbt|]. split; [exact Hbuf|exact Hlive].
Defined.

(** The close event of a socket that a render has cleaned up. *)
Lemma close_event_logs_once_witness :
  let s := run parse_integer initial
             [Render feed 7 None; SocketOpen 0; Render feed 7 None] in
  let w := mkWebSocket feed CLOSING (Some LogConnected)
             (Some (DecodeAndForward (PushClosure 0))) (Some LogDisconnected) in
  let s1 := step parse_integer s (SocketClose 0) in
  sockets s !! 0 = Some w /\
  console s1 = console s ++ ["Websocket disconnected!"%string] /\
  step parse_integer s1 (SocketClose 0) = s1.
Proof.
  intros s w s1.
  assert (sockets s !! 0 = Some w) as H by (vm_compute; reflexivity).
  split; [exact H|].
  destruct (close_event_logs_once parse_integer
              [Render feed 7 None; SocketOpen 0; Render feed 7 None] 0 w "1" H)
    as (_ & Hlog & _ & Hagain & _).
  split; [|exact Hagain].
  apply Hlog. discriminate.
Defined.

(** The array delivered by a flush that returned, under later frames and
    a failing call. *)
Lemma retired_array_is_never_written_witness :
  let s := run parse_integer initial
             [Render feed 7 None; SocketOpen 0; SocketMessage 0 "1"; Tick 0 (ok [])] in
  let s' := run parse_integer s
              [SocketMessage 0 "2"; Tick 0 (failing [5]); SocketMessage 0 "3"] in
  (0 < length (arrays s) /\ 0 <> batchRef s) /\
  arrays s' !! 0 = arrays s !! 0 /\ 0 <> batchRef s'.
Proof.
  intros s s'.
  assert (0 < length (arrays s)) as H1 by (vm_compute; lia).
  assert (0 <> batchRef s) as H2 by (vm_compute; discriminate).
  split; [by split|].
  exact (retired_array_is_never_written parse_integer
           [Render feed 7 None; SocketOpen 0; SocketMessage 0 "1"; Tick 0 (ok [])]
           [SocketMessage 0 "2"; Tick 0 (failing [5]); SocketMessage 0 "3"]
           0 H1 H2).
Defined.

(** Three updates cut into batches in two ways. *)
Lemma batching_is_transparent_to_the_store_witness :
  let a1 := mkStock "AAPL" 101 in
  let m1 := mkStock "MSFT" 55 in
  let a2 := mkStock "AAPL" 102 in
  concat [[a1; m1]; [a2]] = concat [[a1]; []; [m1; a2]] /\
  dispatch_batches (∅ : gmap string nat) [[a1; m1]; [a2]] =
  dispatch_batches ∅ [[a1]; []; [m1; a2]].
Proof.
  intros a1 m1 a2.
  assert (concat [[a1; m1]; [a2]] = concat [[a1]; []; [m1; a2]]) as H
    by reflexivity.
  split; [exact H|].
  exact (proj2 (proj2 (batching_is_transparent_to_the_store ∅ [] []
                         [[a1; m1]; [a2]] [[a1]; []; [m1; a2]] H))).
Defined.

(** Two updates of one id in a batch, and an action of another type. *)
Lemma stockReducer_last_update_wins_witness :
  let b := [mkStock "AAPL" 101; mkStock "MSFT" 55; mkStock "AAPL" 102] in
  let other := mkAction "RESET" b in
  action_type other <> "BATCH_STOCK_UPDATES"%string /\
  last_price "AAPL" b = Some 102 /\
  stockReducer None (batchStockUpdates b) !! "AAPL"%string = Some 102 /\
  stockReducer (@None (gmap string nat)) other = ∅.
Proof.
  intros b other.
  assert (action_type other <> "BATCH_STOCK_UPDATES"%string) as H
    by (vm_compute; discriminate).
  assert (last_price "AAPL" b = Some 102) as Hl by (vm_compute; reflexivity).
  split; [exact H|]. split; [exact Hl|].
  destruct (stockReducer_last_update_wins None b "AAPL" other H) as [Hk Ho].
  rewrite Hl in Hk. split; [exact Hk|exact Ho].
Defined.

(** Three stock frames, a flush between them and one message left in the
    buffer. *)
Lemma delivered_batches_reduce_to_the_arrivals_witness :
  let evs := [Render feed 7 None; SocketOpen 0;
              SocketMessage 0 (stock_frame "AAPL" "101");
              SocketMessage 0 (stock_frame "MSFT" "55");
              Tick 0 (ok []);
              SocketMessage 0 (stock_frame "AAPL" "102")] in
  let s := run parse_stock initial evs in
  (forallb quiet evs = true /\
   arrived s = [mkStock "AAPL" 101; mkStock "MSFT" 55; mkStock "AAPL" 102]) /\
  stockReducer (Some (dispatch_batches ∅ (d_items <$> batches s)))
    (batchStockUpdates (buffer s)) =
  stockReducer (Some ∅) (batchStockUpdates (arrived s)).
Proof.
  intros evs s.
  assert (forallb quiet evs = true) as H by (vm_compute; reflexivity).
  assert (arrived s = [mkStock "AAPL" 101; mkStock "MSFT" 55; mkStock "AAPL" 102])
    as Ha by (vm_compute; reflexivity).
  split; [by split|].
  exact (delivered_batches_reduce_to_the_arrivals parse_stock evs ∅ H).
Defined.
